(** * throttlesocks: the limit parser and the rate-limited connection

    A shallow embedding of the two Go files of the repository that carry
    logic: the bandwidth-limit parser ([uomSuffixes], [parseSuffix],
    [ParseLimit]) and [limit.go] ([GetGoodBurst], [NewLimiter],
    [LimitedConnection] with [rateLimitLoop], [Read], [Write], [waitUntil],
    [Close] and the deadline setters). [LocalAddr] and [RemoteAddr], which
    only forward to the wrapped connection, and [main], which wires the
    parser and the limiter into the SOCKS5 server, are left out.

    Conventions.
    - Go's [int] and [int64] are [Z]; where the source can overflow the
      wrap-around is written out with [wrap64].
    - A Go string is its sequence of bytes, [list ascii]; [str] turns a
      literal into one.
    - [time.Time] is the number of nanoseconds since the zero instant, a [Z];
      the zero [time.Time{}] is [0].
    - What the code gets from outside the repository (the token bucket of
      golang.org/x/time/rate, the wrapped net.Conn, the clock, the outcome of
      a select) is a parameter of the development. *)

From Stdlib Require Import ZArith QArith Qround Lia List Bool Ascii String.
From Stdlib.Strings Require Import Byte.
From stdpp Require Import base gmap.
Import ListNotations.

Open Scope Z_scope.

(** ** Machine integers *)

Definition MinInt64 : Z := - 2 ^ 63.
Definition MaxInt64 : Z := 2 ^ 63 - 1.
Definition MaxUint64 : Z := 2 ^ 64 - 1.

(** The value an [int64] holds after an operation whose mathematical result
    is [z]: two's complement wrap-around. *)
Definition wrap64 (z : Z) : Z := (z + 2 ^ 63) mod 2 ^ 64 - 2 ^ 63.

Definition int64_mul (a b : Z) : Z := wrap64 (a * b).

(** Go's [/] on integers truncates toward zero: [Z.quot]. *)
Definition int64_div (a b : Z) : Z := wrap64 (Z.quot a b).

(** ** Strings *)

Definition gostring := list ascii.

Definition str (s : string) : gostring := list_ascii_of_string s.

Definition len {A} (s : list A) : Z := Z.of_nat (List.length s).

Fixpoint gostring_eqb (a b : gostring) : bool :=
  match a, b with
  | [], [] => true
  | x :: a', y :: b' => Ascii.eqb x y && gostring_eqb a' b'
  | _, _ => false
  end.

(** [strings.HasSuffix]:
    [len(s) >= len(suffix) && s[len(s)-len(suffix):] == suffix]. *)
Definition HasSuffix (s suffix : gostring) : bool :=
  (List.length suffix <=? List.length s)%nat &&
  gostring_eqb (skipn (List.length s - List.length suffix) s) suffix.

(** ** strconv.ParseInt(s, 10, 64)

    The parser of the Go standard library, for base 10 and 64 bits, as the
    library computes it: an optional sign, then [ParseUint] on the rest,
    which reads digit after digit and stops with a range error as soon as
    the next step would leave [uint64]. *)

Inductive NumError := ErrSyntax | ErrRange.

Definition is_digit (c : ascii) : bool :=
  (48 <=? nat_of_ascii c)%nat && (nat_of_ascii c <=? 57)%nat.

Definition digit_val (c : ascii) : Z := Z.of_nat (nat_of_ascii c - 48).

Fixpoint ParseUint_loop (n : Z) (s : gostring) : Z * option NumError :=
  match s with
  | [] => (n, None)
  | c :: r =>
      if is_digit c then
        if MaxUint64 / 10 + 1 <=? n then (MaxUint64, Some ErrRange)
        else
          let n1 := n * 10 + digit_val c in
          if MaxUint64 <? n1 then (MaxUint64, Some ErrRange)
          else ParseUint_loop n1 r
      else (0, Some ErrSyntax)
  end.

Definition ParseUint (s : gostring) : Z * option NumError :=
  match s with
  | [] => (0, Some ErrSyntax)
  | _ => ParseUint_loop 0 s
  end.

Definition ParseInt (s : gostring) : Z * option NumError :=
  match s with
  | [] => (0, Some ErrSyntax)
  | c :: r =>
      let neg := Ascii.eqb c "-" in
      let s1 := if Ascii.eqb c "+" || neg then r else s in
      match ParseUint s1 with
      | (_, Some ErrSyntax) => (0, Some ErrSyntax)
      | (un, _) =>
          let cutoff := 2 ^ 63 in
          if negb neg && (cutoff <=? un) then (cutoff - 1, Some ErrRange)
          else if neg && (cutoff <? un) then (- cutoff, Some ErrRange)
          else (if neg then - un else un, None)
      end
  end.

(** ** The limit parser *)

Module Parse.

(** One entry of [uomSuffixes]. *)
Record uom := { unit : string; mul : Z; div : Z }.

Definition uomSuffixes : list uom :=
  [ {| unit := "Kbps"; mul := 1000; div := 8 |};
    {| unit := "Mbps"; mul := 1000 * 1000; div := 8 |};
    {| unit := "Gbps"; mul := 1000 * 1000 * 1000; div := 8 |};
    {| unit := "KBps"; mul := 1024; div := 1 |};
    {| unit := "MBps"; mul := 1024 * 1024; div := 1 |};
    {| unit := "GBps"; mul := 1024 * 1024 * 1024; div := 1 |};
    {| unit := "bps"; mul := 1; div := 8 |};
    {| unit := "Bps"; mul := 1; div := 1 |} ].

(** The [for _, v := range] of [parseSuffix], over the entries still to
    try. *)
Fixpoint parseSuffix_range (l : list uom) (s : gostring)
  : gostring * Z * Z :=
  match l with
  | [] => (s, 1, 1)
  | v :: l' =>
      if HasSuffix s (str (unit v)) then
        (firstn (List.length s - List.length (str (unit v))) s, mul v, div v)
      else parseSuffix_range l' s
  end.

Definition parseSuffix (s : gostring) : gostring * Z * Z :=
  parseSuffix_range uomSuffixes s.

(** The two errors [ParseLimit] builds with [fmt.Errorf]; each carries the
    input it quotes. *)
Inductive error :=
| FailedToParse (s : gostring)
| NegativeNotAccepted (s : gostring).

Definition ParseLimit (s : gostring) : Z * option error :=
  let '(numberString, mul, div) := parseSuffix s in
  match ParseInt numberString with
  | (_, Some _) => (0, Some (FailedToParse s))
  | (bytesPerSecond, None) =>
      let bytesPerSecond := int64_mul bytesPerSecond mul in
      let bytesPerSecond := int64_div bytesPerSecond div in
      if bytesPerSecond <? 0 then (0, Some (NegativeNotAccepted s))
      else (bytesPerSecond, None)
  end.

End Parse.

(** ** limit.go *)

Module Limit.

(** *** The time package, as far as limit.go uses it *)

Definition Time := Z.
Definition Duration := Z.

(** [time.Time{}] *)
Definition zeroTime : Time := 0.

Definition IsZero (t : Time) : bool := t =? 0.
Definition Before (t u : Time) : bool := t <? u.
Definition Add (t : Time) (d : Duration) : Time := t + d.

(** [t.Sub(u)] saturates at the two ends of [Duration]. *)
Definition Sub (t u : Time) : Duration :=
  Z.max MinInt64 (Z.min MaxInt64 (t - u)).

(** *** Errors *)

(** [type timeoutError struct{}] and its three methods. *)
Inductive timeoutError := timeoutError_lit.

Definition Error (_ : timeoutError) : string := "deadline exceeded".
Definition Timeout (_ : timeoutError) : bool := true.
Definition Temporary (_ : timeoutError) : bool := true.

(** The values of Go's [error] interface that reach this code:
    [io.ErrClosedPipe], a [timeoutError], or whatever else the wrapped
    connection reports, kept by its message. *)
Inductive error :=
| io_ErrClosedPipe
| err_timeoutError (e : timeoutError)
| err_other (msg : string).

(** *** What lies outside the repository *)

(** [rate.Limit] is a [float64]; a finite one is a rational number, and is
    modelled by that number. *)
Definition rate_Limit := Q.

(** Which case of the [select] in [waitUntil] went through. *)
Inductive Fired := TimerFired | CloseFired.

(** What [func([]byte) (int, error)] does on a connection: the count, the
    error, the bytes the slice holds afterwards, and the connection
    afterwards. *)
Definition Action (Conn : Type) : Type :=
  Conn -> list byte -> (Z * option error * list byte) * Conn.

Class Outside := {
  (** golang.org/x/time/rate: the token bucket and its reservations *)
  Limiter : Type;
  Reservation : Type;
  rate_NewLimiter : rate_Limit -> Z -> Limiter;
  Burst : Limiter -> Z;
  ReserveN : Limiter -> Time -> Z -> Reservation * Limiter;
  DelayFrom : Reservation -> Time -> Duration;
  (** net.Conn: the wrapped connection *)
  Conn : Type;
  conn_Read : Action Conn;
  conn_Write : Action Conn;
  conn_SetReadDeadline : Conn -> Time -> option error * Conn;
  conn_SetWriteDeadline : Conn -> Time -> option error * Conn;
  conn_Close : Conn -> option error * Conn;
  (** the runtime: the successive readings of [time.Now()]; the case a
      [select] takes when both or neither can proceed at once; what the
      platform makes of [int64(f)] for a float that does not fit *)
  clock : nat -> Time;
  chosen : nat -> Fired;
  int64_unrepresentable : Q -> Z
}.

(** *** Computations: a state, and a panic that ends the call *)

Inductive panic :=
| NilDereference
| SliceBoundsOutOfRange
| CloseOfClosedChannel.

Inductive Result (S A : Type) :=
| Done (a : A) (s : S)
| Panicked (p : panic).

Arguments Done {S A} a s.
Arguments Panicked {S A} p.

Definition M (S A : Type) : Type := S -> Result S A.

Definition ret {S A} (a : A) : M S A := fun s => Done a s.

Definition bind {S A B} (m : M S A) (k : A -> M S B) : M S B :=
  fun s => match m s with
           | Done a s' => k a s'
           | Panicked p => Panicked p
           end.

Definition raise {S A} (p : panic) : M S A := fun _ => Panicked p.

Notation "'let!' x ':=' m 'in' k" := (bind m (fun x => k))
  (at level 10, x pattern, m at level 100, k at level 200).

Section Model.

Context {O : Outside}.

(** *** Burst sizing *)

Definition MinBurstSize : Z := 1.
Definition MaxBurstSize : Z := 64 * 1024.

(** [int64(l)] for a float [l]: the fraction is discarded (truncation toward
    zero); Go leaves the result to the implementation when it does not fit
    [int64]. *)
Definition truncate (l : Q) : Z := Z.quot (Qnum l) (Zpos (Qden l)).

Definition fits_int64 (z : Z) : bool := (MinInt64 <=? z) && (z <=? MaxInt64).

Definition int64_of_Limit (l : rate_Limit) : Z :=
  if fits_int64 (truncate l) then truncate l
  else wrap64 (int64_unrepresentable l).

Definition GetGoodBurst (l : rate_Limit) : Z :=
  if Qeq_bool l 0 then MaxBurstSize
  else
    let burstSize := int64_div (int64_of_Limit l) 20 in
    let burstSize :=
      if burstSize <? MinBurstSize then MinBurstSize
      else if burstSize >? MaxBurstSize then MaxBurstSize
      else burstSize in
    burstSize.

(** *** State *)

(** A [*rate.Limiter]. The limiters live in the world, so that connections
    holding the same pointer share one bucket. A pointer that is not
    allocated is nil. *)
Abbreviation loc := nat.

Inductive Event :=
| EvWait (t : Time) (f : Fired)
| EvIO (chunk : list byte) (n : Z) (err : option error)
| EvReserve (now : Time) (n : Z) (r : Reservation).

(** The world around a connection: the limiters, how many times the clock
    has been read, how many selects have run, and the log of what the calls
    did to the outside, oldest first. *)
Record World := {
  limiters : gmap loc Limiter;
  ticks : nat;
  selects : nat;
  trace : list Event
}.

(** [chan struct{}] on which nothing is ever sent: open or closed. *)
Inductive chan := ChanOpen | ChanClosed.

Record LimitedConnection := {
  inner : Conn;
  limiter : loc;
  readNotBefore : Time;
  writeNotBefore : Time;
  readDeadline : Time;
  writeDeadline : Time;
  close : chan
}.

(** Pointers to the four [time.Time] fields, as [rateLimitLoop] gets them. *)
Inductive TimePtr :=
| p_readNotBefore | p_writeNotBefore | p_readDeadline | p_writeDeadline.

Definition deref (p : TimePtr) (c : LimitedConnection) : Time :=
  match p with
  | p_readNotBefore => readNotBefore c
  | p_writeNotBefore => writeNotBefore c
  | p_readDeadline => readDeadline c
  | p_writeDeadline => writeDeadline c
  end.

Definition assign (p : TimePtr) (t : Time) (c : LimitedConnection)
  : LimitedConnection :=
  {| inner := inner c;
     limiter := limiter c;
     readNotBefore := if p is p_readNotBefore then t else readNotBefore c;
     writeNotBefore := if p is p_writeNotBefore then t else writeNotBefore c;
     readDeadline := if p is p_readDeadline then t else readDeadline c;
     writeDeadline := if p is p_writeDeadline then t else writeDeadline c;
     close := close c |}.

Definition set_inner (i : Conn) (c : LimitedConnection) : LimitedConnection :=
  {| inner := i;
     limiter := limiter c;
     readNotBefore := readNotBefore c;
     writeNotBefore := writeNotBefore c;
     readDeadline := readDeadline c;
     writeDeadline := writeDeadline c;
     close := close c |}.

Definition set_close (ch : chan) (c : LimitedConnection) : LimitedConnection :=
  {| inner := inner c;
     limiter := limiter c;
     readNotBefore := readNotBefore c;
     writeNotBefore := writeNotBefore c;
     readDeadline := readDeadline c;
     writeDeadline := writeDeadline c;
     close := ch |}.

Definition set_limiters (m : gmap loc Limiter) (w : World) : World :=
  {| limiters := m; ticks := ticks w; selects := selects w;
     trace := trace w |}.

Definition tick (w : World) : World :=
  {| limiters := limiters w; ticks := S (ticks w); selects := selects w;
     trace := trace w |}.

Definition selected (w : World) : World :=
  {| limiters := limiters w; ticks := ticks w; selects := S (selects w);
     trace := trace w |}.

Definition log (e : Event) (w : World) : World :=
  {| limiters := limiters w; ticks := ticks w; selects := selects w;
     trace := trace w ++ [e] |}.

(** A method of [*LimitedConnection] runs on the connection and the world. *)
Definition State : Type := LimitedConnection * World.

Definition lift {A} (m : M World A) : M State A :=
  fun '(c, w) => match m w with
                 | Done a w' => Done a (c, w')
                 | Panicked p => Panicked p
                 end.

Definition time_Now : M World Time :=
  fun w => Done (clock (ticks w)) (tick w).

Definition limiter_Burst (l : loc) : M World Z :=
  fun w => match limiters w !! l with
           | Some lim => Done (Burst lim) w
           | None => Panicked NilDereference
           end.

Definition limiter_ReserveN (l : loc) (now : Time) (n : Z)
  : M World Reservation :=
  fun w => match limiters w !! l with
           | Some lim =>
               let '(r, lim') := ReserveN lim now n in
               Done r (log (EvReserve now n r)
                         (set_limiters (<[l := lim']> (limiters w)) w))
           | None => Panicked NilDereference
           end.

Definition this : M State LimitedConnection := fun '(c, w) => Done c (c, w).

Definition load (p : TimePtr) : M State Time :=
  fun '(c, w) => Done (deref p c) (c, w).

Definition store (p : TimePtr) (t : Time) : M State unit :=
  fun '(c, w) => Done tt (assign p t c, w).

(** One call of the wrapped connection's primitive. *)
Definition call (innerAct : Action Conn) (b : list byte)
  : M State (Z * option error * list byte) :=
  fun '(c, w) =>
    let '(n, err, data, i) := innerAct (inner c) b in
    Done (n, err, data) (set_inner i c, log (EvIO b n err) w).

(** [b[lo:]] and [b[:hi]]; the slices of this code have no capacity beyond
    their length that it could reach. *)
Definition slice_from {S A} (b : list A) (lo : Z) : M S (list A) :=
  if (lo <? 0) || (len b <? lo) then raise SliceBoundsOutOfRange
  else ret (skipn (Z.to_nat lo) b).

Definition slice_to {S A} (b : list A) (hi : Z) : M S (list A) :=
  if (hi <? 0) || (len b <? hi) then raise SliceBoundsOutOfRange
  else ret (firstn (Z.to_nat hi) b).

(** The caller's buffer after the chunk that started at [lo] now holds
    [data]. *)
Definition write_back {A} (b : list A) (lo : Z) (data : list A) : list A :=
  firstn (Z.to_nat lo) b ++ data
    ++ skipn (Z.to_nat lo + List.length data) b.

(** *** waitUntil *)

(** The [select] over [timer.C] and [c.close]. The duration [d] is computed
    and the timer made before the select runs, and what can proceed is
    settled only when it runs. With the channel open and the duration run
    out, the timer case is taken. In every other case the outside decides:
    with the channel closed the close case can proceed, and so can the timer
    case once the timer has expired, be it in the time between its making
    and the select, Go then picking one at random; with the channel open
    and time left, the case that becomes ready first is taken (the channel
    by a Close on another goroutine). *)
Definition select_case (ch : chan) (d : Duration) (choice : Fired) : Fired :=
  match ch, 0 <? d with
  | ChanOpen, false => TimerFired
  | _, _ => choice
  end.

Definition select_timer_close (d : Duration) : M State Fired :=
  fun '(c, w) =>
    let f := select_case (close c) d (chosen (selects w)) in
    Done f (if f is CloseFired then set_close ChanClosed c else c,
            selected w).

Definition waitUntil (t : Time) : M State bool :=
  let! now := lift time_Now in
  let! f := select_timer_close (Sub t now) in
  fun '(c, w) =>
    Done (if f is CloseFired then true else false) (c, log (EvWait t f) w).

(** *** The throttle loop *)

Definition rateLimitLoop (notBefore deadline : TimePtr)
    (innerAct : Action Conn) (b : list byte)
  : M State (Z * option error * list byte) :=
  if len b =? 0 then call innerAct b
  else
    let cntr := 0 in
    let! now := lift time_Now in
    let until := zeroTime in
    let! nb := load notBefore in
    let! dl := load deadline in
    let until :=
      if Before now nb then
        if negb (IsZero dl) && Before dl nb then dl else nb
      else until in
    let! closed :=
      if negb (IsZero until) then waitUntil until else ret false in
    if closed then ret (cntr, Some io_ErrClosedPipe, b)
    else
      let! c := this in
      let! burst := lift (limiter_Burst (limiter c)) in
      let burst := if burst >? len b - cntr then len b - cntr else burst in
      let! rest := slice_from b cntr in
      let! chunk := slice_to rest burst in
      let! (n, err, data) := call innerAct chunk in
      let b := write_back b cntr data in
      if n =? 0 then ret (cntr, err, b)
      else
        let cntr := cntr + n in
        let until := zeroTime in
        let! now := lift time_Now in
        let! r := lift (limiter_ReserveN (limiter c) now n) in
        let act := Add now (DelayFrom r now) in
        let! dl := load deadline in
        let after (until : Time) :=
          let! closed :=
            if negb (IsZero until) then waitUntil act else ret false in
          if closed then ret (cntr, Some io_ErrClosedPipe, b)
          else ret (cntr, err, b) in
        if Before now act then
          if negb (IsZero dl) && Before dl act then
            let! _ := store notBefore act in
            ret (cntr, Some (err_timeoutError timeoutError_lit), b)
          else after act
        else after until.

Definition Read (b : list byte) : M State (Z * option error * list byte) :=
  rateLimitLoop p_readNotBefore p_readDeadline conn_Read b.

Definition Write (b : list byte) : M State (Z * option error * list byte) :=
  rateLimitLoop p_writeNotBefore p_writeDeadline conn_Write b.

(** *** Construction, deadlines, close *)

Definition NewLimitedConnection (inner : Conn) (limiter : loc)
  : M World LimitedConnection :=
  let! bufSize := limiter_Burst limiter in
  let bufSize :=
    if bufSize >? MaxBurstSize then MaxBurstSize else bufSize in
  ret {| inner := inner;
         limiter := limiter;
         readNotBefore := zeroTime;
         writeNotBefore := zeroTime;
         readDeadline := zeroTime;
         writeDeadline := zeroTime;
         close := ChanOpen |}.

(** [rate.NewLimiter] returns a pointer to a new limiter. *)
Definition NewLimiter (limit : rate_Limit) : M World loc :=
  fun w =>
    let l := fresh (dom (limiters w)) in
    Done l (set_limiters
              (<[l := rate_NewLimiter limit (GetGoodBurst limit)]>
                 (limiters w)) w).

Definition on_inner {A} (f : Conn -> A * Conn) : M State A :=
  fun '(c, w) => let '(a, i) := f (inner c) in Done a (set_inner i c, w).

Definition SetReadDeadline (t : Time) : M State (option error) :=
  let! _ := store p_readDeadline t in
  on_inner (fun i => conn_SetReadDeadline i t).

Definition SetWriteDeadline (t : Time) : M State (option error) :=
  let! _ := store p_writeDeadline t in
  on_inner (fun i => conn_SetWriteDeadline i t).

Definition SetDeadline (t : Time) : M State (option error) :=
  let! err := SetReadDeadline t in
  if err is Some e then ret (Some e)
  else SetWriteDeadline t.

(** [close(c.close)]: closing a closed channel panics. *)
Definition close_chan : M State unit :=
  fun '(c, w) =>
    match close c with
    | ChanOpen => Done tt (set_close ChanClosed c, w)
    | ChanClosed => Panicked CloseOfClosedChannel
    end.

Definition Close : M State (option error) :=
  let! _ := close_chan in
  let! res := on_inner conn_Close in
  ret res.

End Model.

End Limit.

(** ** Test doubles

    A concrete outside world to run the model on: a bucket that earns one
    token every [pace] nanoseconds, a connection that answers from a script,
    a clock that advances by one nanosecond per reading, selects that go to
    the timer whenever the outside decides, and the float conversion of
    amd64. *)

Module Double.

Import Limit.

Record bucket := { capacity : Z; pace : Z; free_at : Time }.

Definition bucket_ReserveN (lim : bucket) (now : Time) (n : Z)
  : Time * bucket :=
  let ready := Z.max now (free_at lim) + n * pace lim in
  (ready, {| capacity := capacity lim; pace := pace lim; free_at := ready |}).

(** The counts the wrapped connection will answer with, call after call;
    once the script is over it reports the end of the stream. *)
Definition script := list Z.

Definition script_act : Action script :=
  fun s b =>
    match s with
    | [] => ((0, Some (err_other "EOF"), b), [])
    | n :: s' => ((Z.min n (len b), None, b), s')
    end.

#[local] Instance outside : Outside := {|
  Limiter := bucket;
  Reservation := Time;
  rate_NewLimiter := fun _ burst =>
    {| capacity := burst; pace := 1000; free_at := 0 |};
  Burst := capacity;
  ReserveN := bucket_ReserveN;
  DelayFrom := fun ready now => Z.max 0 (ready - now);
  Conn := script;
  conn_Read := script_act;
  conn_Write := script_act;
  conn_SetReadDeadline := fun s _ => (None, s);
  conn_SetWriteDeadline := fun s _ => (None, s);
  conn_Close := fun s => (None, s);
  clock := fun k => 1000 + Z.of_nat k;
  chosen := fun _ => TimerFired;
  int64_unrepresentable := fun _ => MinInt64
|}.

Definition world0 : World :=
  {| limiters := {[ 1%nat := {| capacity := 4; pace := 1000; free_at := 0 |} ]};
     ticks := 0; selects := 0; trace := [] |}.

Definition conn0 : LimitedConnection :=
  {| inner := [8; 8; 0];
     limiter := 1%nat;
     readNotBefore := zeroTime;
     writeNotBefore := zeroTime;
     readDeadline := zeroTime;
     writeDeadline := zeroTime;
     close := ChanOpen |}.

Definition buf6 : list byte := [x01; x02; x03; x04; x05; x06]%byte.

(** [conn0] with a read deadline. *)
Definition conn_deadline : LimitedConnection :=
  {| inner := [8; 8; 0];
     limiter := 1%nat;
     readNotBefore := zeroTime;
     writeNotBefore := zeroTime;
     readDeadline := 2000;
     writeDeadline := zeroTime;
     close := ChanOpen |}.

(** A connection at the end of its stream. *)
Definition conn_eof : LimitedConnection :=
  {| inner := [];
     limiter := 1%nat;
     readNotBefore := zeroTime;
     writeNotBefore := zeroTime;
     readDeadline := zeroTime;
     writeDeadline := zeroTime;
     close := ChanOpen |}.

End Double.

Module DoubleClosing.

Import Limit Double.

(** The same outside world, except that every select the outside decides
    goes to the close signal: a Close on another goroutine fires it before
    the timer. *)
#[local] Instance closing : Outside := {|
  Limiter := bucket;
  Reservation := Time;
  rate_NewLimiter := fun _ burst =>
    {| capacity := burst; pace := 1000; free_at := 0 |};
  Burst := capacity;
  ReserveN := bucket_ReserveN;
  DelayFrom := fun ready now => Z.max 0 (ready - now);
  Conn := script;
  conn_Read := script_act;
  conn_Write := script_act;
  conn_SetReadDeadline := fun s _ => (None, s);
  conn_SetWriteDeadline := fun s _ => (None, s);
  conn_Close := fun s => (None, s);
  clock := fun k => 1000 + Z.of_nat k;
  chosen := fun _ => CloseFired;
  int64_unrepresentable := fun _ => MinInt64
|}.

Definition world0_closing : World :=
  {| limiters := {[ 1%nat := {| capacity := 4; pace := 1000; free_at := 0 |} ]};
     ticks := 0; selects := 0; trace := [] |}.

(** A connection in that world that owes a delay until 5000 on its read
    side. *)
Definition conn_owing_closing : LimitedConnection :=
  {| inner := [8; 8; 0];
     limiter := 1%nat;
     readNotBefore := 5000;
     writeNotBefore := zeroTime;
     readDeadline := zeroTime;
     writeDeadline := zeroTime;
     close := ChanOpen |}.

End DoubleClosing.

(** * Theorems *)

(** ** The limit parser *)

Module ParseFacts.

Import Parse.

Lemma wrap64_small z : MinInt64 <= z <= MaxInt64 -> wrap64 z = z.
Proof.
  unfold wrap64, MinInt64, MaxInt64. intros H.
  rewrite Z.mod_small; lia.
Qed.

Lemma gostring_eqb_eq a b : gostring_eqb a b = true <-> a = b.
Proof.
  revert b. induction a as [|x a IH]; intros [|y b]; simpl;
    try (split; [discriminate | congruence]); [tauto|].
  rewrite andb_true_iff, IH. split.
  - intros [H ->]. apply Ascii.eqb_eq in H. now subst.
  - intros H. injection H as -> ->. split; [apply Ascii.eqb_refl | reflexivity].
Qed.

(** [HasSuffix] says what its name promises. *)
Lemma HasSuffix_spec s v : HasSuffix s v = true <-> exists p, s = p ++ v.
Proof.
  unfold HasSuffix. rewrite andb_true_iff, gostring_eqb_eq, Nat.leb_le.
  split.
  - intros [_ H]. exists (firstn (List.length s - List.length v) s).
    rewrite <- (firstn_skipn (List.length s - List.length v) s) at 1.
    f_equal. exact H.
  - intros [p ->]. rewrite length_app. split; [lia|].
    replace (List.length p + List.length v - List.length v)%nat
      with (List.length p) by lia.
    rewrite skipn_app, Nat.sub_diag, skipn_all. reflexivity.
Qed.

(** The number a string of digits denotes. *)
Definition decimal (ds : gostring) : Z :=
  fold_left (fun n c => n * 10 + digit_val c) ds 0.

(** A non-negative base-10 integer: one digit or more. *)
Definition digits (ds : gostring) : Prop :=
  ds <> [] /\ forallb is_digit ds = true.

(** The suffixes of the grammar: the eight units, or none. An entry with the
    empty unit stands for "none": every string ends with the empty string,
    and [parseSuffix] falls back on multiplier 1 and divisor 1. *)
Definition no_unit : uom := {| unit := ""; mul := 1; div := 1 |}.

Definition grammar : list uom := uomSuffixes ++ [no_unit].

Definition grammatical (s : gostring) : Prop :=
  exists ds v, digits ds /\ In v grammar /\ s = ds ++ str (unit v).

(** The bytes-per-second value [ParseLimit] has in hand when it reaches its
    test [bytesPerSecond < 0]. *)
Definition computed (s : gostring) : Z :=
  let '(numberString, mul, div) := parseSuffix s in
  int64_div (int64_mul (fst (ParseInt numberString)) mul) div.

Lemma digit_val_nonneg c : 0 <= digit_val c.
Proof. unfold digit_val. lia. Qed.

Lemma fold_digits_ge ds : forall n,
  0 <= n -> n <= fold_left (fun n c => n * 10 + digit_val c) ds n.
Proof.
  induction ds as [|c r IH]; intros n Hn; simpl; [lia|].
  pose proof (digit_val_nonneg c).
  specialize (IH (n * 10 + digit_val c)). lia.
Qed.

Lemma ParseUint_loop_decimal ds : forall n,
  forallb is_digit ds = true -> 0 <= n ->
  fold_left (fun n c => n * 10 + digit_val c) ds n <= MaxUint64 ->
  ParseUint_loop n ds = (fold_left (fun n c => n * 10 + digit_val c) ds n, None).
Proof.
  induction ds as [|c r IH]; intros n Hd Hn Hle; simpl in *; [reflexivity|].
  apply andb_true_iff in Hd as [Hc Hr]. rewrite Hc.
  pose proof (digit_val_nonneg c) as Hv.
  pose proof (fold_digits_ge r (n * 10 + digit_val c) ltac:(lia)) as Hge.
  change (MaxUint64 / 10 + 1) with 1844674407370955162.
  unfold MaxUint64 in *.
  destruct (Z.leb_spec 1844674407370955162 n); [lia|].
  destruct (Z.ltb_spec (2 ^ 64 - 1) (n * 10 + digit_val c)); [lia|].
  apply IH; [assumption | lia | assumption].
Qed.

Lemma digit_not_other c d :
  is_digit d = true -> is_digit c = false -> Ascii.eqb d c = false.
Proof.
  intros Hd Hc. destruct (Ascii.eqb_spec d c); [congruence | reflexivity].
Qed.

Lemma ParseInt_digits ds :
  digits ds -> decimal ds <= MaxInt64 -> ParseInt ds = (decimal ds, None).
Proof.
  intros [Hne Hd] Hle. destruct ds as [|c r]; [congruence|].
  unfold ParseInt.
  assert (Hc : is_digit c = true) by (simpl in Hd; now apply andb_true_iff in Hd).
  rewrite (digit_not_other "-" c Hc eq_refl), (digit_not_other "+" c Hc eq_refl).
  cbn [orb negb andb ParseUint].
  unfold decimal in *. unfold MaxInt64 in Hle.
  rewrite ParseUint_loop_decimal; [|assumption|lia|unfold MaxUint64; lia].
  destruct (Z.leb_spec (2 ^ 63) (fold_left (fun n c => n * 10 + digit_val c) (c :: r) 0));
    [lia | reflexivity].
Qed.

Lemma firstn_drop_suffix (p v : gostring) :
  firstn (List.length (p ++ v) - List.length v) (p ++ v) = p.
Proof.
  rewrite length_app.
  replace (List.length p + List.length v - List.length v)%nat
    with (List.length p) by lia.
  rewrite firstn_app, Nat.sub_diag, firstn_all. simpl. apply app_nil_r.
Qed.

(** Decides one test [HasSuffix s v] of the loop of [parseSuffix] on an
    input that ends with a digit and then a unit. *)
Ltac suffix_test Hd :=
  match goal with
  | |- context [HasSuffix ?s ?v] =>
      let E := fresh "E" in
      destruct (HasSuffix s v) eqn:E;
      [ first
          [ solve [rewrite firstn_drop_suffix; reflexivity]
          | exfalso; apply HasSuffix_spec in E as [? E];
            apply (f_equal (@rev ascii)) in E;
            rewrite !rev_app_distr in E; simpl in E;
            solve [discriminate E | injection E as; subst; discriminate Hd] ]
      | try (exfalso;
             assert (HasSuffix s v = true)
               by (apply HasSuffix_spec; eexists; reflexivity);
             congruence) ]
  end.

(** On a number followed by a suffix of the grammar, [parseSuffix] splits
    where the grammar does and finds the multiplier and the divisor of that
    suffix: no unit is taken for another one. *)
Lemma parseSuffix_grammar ds v :
  digits ds -> In v grammar ->
  parseSuffix (ds ++ str (unit v)) = (ds, mul v, div v).
Proof.
  intros [Hne Hd] Hin.
  destruct (exists_last Hne) as [ds' [d ->]].
  rewrite forallb_app in Hd. apply andb_true_iff in Hd as [_ Hd].
  simpl in Hd. rewrite andb_true_r in Hd.
  unfold grammar, uomSuffixes in Hin. simpl in Hin.
  repeat (destruct Hin as [<- | Hin]); [..| destruct Hin];
    unfold parseSuffix, uomSuffixes, parseSuffix_range; cbn [unit mul div];
    repeat suffix_test Hd.
  unfold no_unit, str. simpl. now rewrite app_nil_r.
Qed.

(** What [ParseLimit] returns on an input of the grammar whose number,
    scaled by the unit's multiplier, still fits [int64]. *)
Lemma ParseLimit_grammar ds v :
  digits ds -> In v grammar -> decimal ds * mul v <= MaxInt64 ->
  ParseLimit (ds ++ str (unit v)) = (Z.quot (decimal ds * mul v) (div v), None)
  /\ computed (ds ++ str (unit v)) = Z.quot (decimal ds * mul v) (div v)
  /\ 0 <= Z.quot (decimal ds * mul v) (div v).
Proof.
  intros Hds Hin Hle.
  assert (Hn : 0 <= decimal ds) by (apply (fold_digits_ge ds 0); lia).
  assert (Hmd : 1 <= mul v /\ (div v = 1 \/ div v = 8)).
  { unfold grammar, uomSuffixes in Hin. simpl in Hin.
    repeat (destruct Hin as [<- | Hin]); [..| destruct Hin]; simpl; lia. }
  destruct Hmd as [Hm Hdv].
  assert (Hq : 0 <= Z.quot (decimal ds * mul v) (div v) <= decimal ds * mul v).
  { split.
    - apply Z.quot_pos; nia.
    - destruct Hdv as [-> | ->].
      + rewrite Z.quot_1_r. lia.
      + apply Z.quot_le_upper_bound; nia. }
  assert (Hp : ParseInt ds = (decimal ds, None))
    by (apply ParseInt_digits; [assumption | nia]).
  unfold ParseLimit, computed. rewrite (parseSuffix_grammar ds v Hds Hin), Hp.
  cbn [fst]. unfold int64_mul, int64_div.
  rewrite (wrap64_small (decimal ds * mul v)) by (unfold MinInt64; nia).
  rewrite wrap64_small by (unfold MinInt64; lia).
  destruct (Z.ltb_spec (Z.quot (decimal ds * mul v) (div v)) 0); [lia|].
  repeat split; lia.
Qed.

(** The values the specification lists for the parser that the code agrees
    with. *)
Example ParseLimit_10Mbps : ParseLimit (str "10Mbps") = (1250000, None).
Proof. reflexivity. Qed.

Example ParseLimit_10MBps : ParseLimit (str "10MBps") = (10485760, None).
Proof. reflexivity. Qed.

Example ParseLimit_0bps : ParseLimit (str "0bps") = (0, None).
Proof. reflexivity. Qed.

Example ParseLimit_abc :
  ParseLimit (str "abc") = (0, Some (FailedToParse (str "abc"))).
Proof. reflexivity. Qed.

(** A negative number is refused once it is large enough to survive the
    division by 8. *)
Example ParseLimit_minus8bps :
  ParseLimit (str "-8bps") = (0, Some (NegativeNotAccepted (str "-8bps"))).
Proof. reflexivity. Qed.

(** C4. [ParseLimit("-5bps")] does not fail: the suffix "bps" leaves the
    number -5, which [strconv.ParseInt] accepts; -5 * 1 / 8 is 0 in Go
    (division truncates toward zero), the test [bytesPerSecond < 0] comes
    after the division and does not fire, and the call returns 0 with no
    error. *)
Theorem ParseLimit_minus5bps_accepted :
  parseSuffix (str "-5bps") = (str "-5", 1, 8)
  /\ ParseInt (str "-5") = (-5, None)
  /\ int64_div (int64_mul (-5) 1) 8 = 0
  /\ ParseLimit (str "-5bps") = (0, None).
Proof. repeat split; reflexivity. Qed.

(** C5, as the specification states it, fails: [ParseLimit("100")] is not
    12. *)
Lemma ParseLimit_100_is_not_12 :
  ParseLimit (str "100") = (100, None) /\ 100 <> 12.
Proof. split; [reflexivity | discriminate]. Qed.

(** C5, amended. [ParseLimit("100")] returns 100: with no unit recognised
    [parseSuffix] returns the string as it is with multiplier 1 and divisor
    1, so the number is taken as bytes per second and is not divided by 8. *)
Theorem ParseLimit_100_no_unit :
  parseSuffix (str "100") = (str "100", 1, 1)
  /\ ParseLimit (str "100") = (100, None).
Proof. split; reflexivity. Qed.

(** C6, as the specification states it, fails: "9223372036854775807Kbps" is
    a number followed by a unit, the multiplication by 1000 wraps around in
    [int64] to -1000, the value in hand is -125 and the test for a negative
    value fires. *)
Lemma negative_check_fires_on_grammatical_input :
  let s := str "9223372036854775807Kbps" in
  grammatical s
  /\ computed s = -125
  /\ ParseLimit s = (0, Some (NegativeNotAccepted s)).
Proof.
  cbv zeta. repeat split; try reflexivity.
  exists (str "9223372036854775807"), {| unit := "Kbps"; mul := 1000; div := 8 |}.
  repeat split; [discriminate | left; reflexivity].
Qed.

(** C6, amended. For every input made of a non-negative base-10 integer and
    then one of the eight units or nothing, such that the integer times the
    unit's multiplier does not exceed the largest [int64], the value
    [ParseLimit] computes is the integer times the multiplier divided by the
    divisor, it is not negative, and [ParseLimit] returns it with no error:
    the test for a negative value does not fire. *)
Theorem ParseLimit_never_negative_in_range (s ds : gostring) (v : uom) :
  digits ds -> In v grammar -> s = ds ++ str (unit v) ->
  decimal ds * mul v <= MaxInt64 ->
  computed s = Z.quot (decimal ds * mul v) (div v)
  /\ 0 <= computed s
  /\ ParseLimit s = (computed s, None).
Proof.
  intros Hds Hin -> Hle.
  destruct (ParseLimit_grammar ds v Hds Hin Hle) as (Hp & Hc & Hq).
  rewrite Hc. repeat split; assumption.
Qed.

(** C6, amended, at "10Mbps". *)
Lemma ParseLimit_never_negative_in_range_witness :
  let ds := str "10" in
  let v := {| unit := "Mbps"; mul := 1000 * 1000; div := 8 |} in
  (digits ds /\ In v grammar /\ decimal ds * mul v <= MaxInt64)
  /\ computed (str "10Mbps") = Z.quot (decimal ds * mul v) (div v)
  /\ 0 <= computed (str "10Mbps")
  /\ ParseLimit (str "10Mbps") = (computed (str "10Mbps"), None).
Proof.
  assert (H1 : digits (str "10")) by (split; [discriminate | reflexivity]).
  assert (H2 : In {| unit := "Mbps"; mul := 1000 * 1000; div := 8 |} grammar)
    by (right; left; reflexivity).
  assert (H3 : decimal (str "10") * (1000 * 1000) <= MaxInt64)
    by (vm_compute; discriminate).
  cbv zeta. split; [split; [exact H1 | split; [exact H2 | exact H3]] |].
  exact (ParseLimit_never_negative_in_range (str "10Mbps") (str "10") _
           H1 H2 eq_refl H3).
Defined.

End ParseFacts.

(** ** Burst sizing *)

Module BurstFacts.

Import Limit.

(** The rule of the specification: [clamp(rate / 20, MIN_BURST,
    MAX_BURST)], the quotient truncated to an integer. *)
Definition clamp (x lo hi : Z) : Z := Z.max lo (Z.min hi x).

Definition goodBurst_rule (rate : Q) : Z :=
  clamp (truncate (rate / inject_Z 20)) 1 65536.

(** Truncating the rate and then dividing by 20 as [int64] does gives the
    truncated quotient of the rate by 20. *)
Lemma truncate_div_20 (l : Q) :
  truncate (l / inject_Z 20) = Z.quot (truncate l) 20.
Proof.
  destruct l as [n d]. unfold truncate, Qdiv, Qmult, Qinv. simpl.
  rewrite Z.mul_1_r, Pos2Z.inj_mul, Z.quot_quot by lia. reflexivity.
Qed.

Lemma truncate_nonneg (l : Q) : (0 <= l)%Q -> 0 <= truncate l.
Proof.
  destruct l as [n d]. unfold Qle, truncate. simpl. intros H.
  apply Z.quot_pos; lia.
Qed.

Section Facts.

Context {O : Outside}.

Lemma GetGoodBurst_bounds (l : rate_Limit) : 1 <= GetGoodBurst l <= 65536.
Proof.
  unfold GetGoodBurst, MinBurstSize, MaxBurstSize.
  destruct (Qeq_bool l 0); [lia|].
  set (q := int64_div (int64_of_Limit l) 20).
  destruct (Z.ltb_spec q 1); [lia|].
  destruct (Z.gtb_spec q (64 * 1024)); lia.
Qed.

Lemma GetGoodBurst_zero (l : rate_Limit) :
  (l == 0)%Q -> GetGoodBurst l = 65536.
Proof.
  intros H. unfold GetGoodBurst.
  apply Qeq_bool_iff in H. rewrite H. reflexivity.
Qed.

Lemma GetGoodBurst_rule (l : rate_Limit) :
  (0 < l)%Q -> truncate l <= MaxInt64 -> GetGoodBurst l = goodBurst_rule l.
Proof.
  intros Hpos Hfit.
  pose proof (truncate_nonneg l (Qlt_le_weak _ _ Hpos)) as H0.
  unfold GetGoodBurst, goodBurst_rule, clamp, MinBurstSize, MaxBurstSize.
  destruct (Qeq_bool l 0) eqn:E.
  { apply Qeq_bool_iff in E. rewrite E in Hpos. now apply Qlt_irrefl in Hpos. }
  unfold int64_of_Limit, fits_int64.
  destruct (Z.leb_spec MinInt64 (truncate l)); [|unfold MinInt64 in *; lia].
  destruct (Z.leb_spec (truncate l) MaxInt64); [|lia].
  cbn [andb]. unfold int64_div.
  assert (Hq : 0 <= Z.quot (truncate l) 20 <= truncate l).
  { split; [apply Z.quot_pos; lia | apply Z.quot_le_upper_bound; lia]. }
  rewrite ParseFacts.wrap64_small by (unfold MinInt64 in *; lia).
  rewrite truncate_div_20.
  destruct (Z.ltb_spec (Z.quot (truncate l) 20) 1); [lia|].
  destruct (Z.gtb_spec (Z.quot (truncate l) 20) (64 * 1024)); lia.
Qed.

(** For a rate that is not negative, discarding the fraction is rounding
    down. *)
Lemma truncate_Qfloor (l : Q) : (0 <= l)%Q -> truncate l = Qfloor l.
Proof.
  destruct l as [n d]. unfold Qle, truncate, Qfloor. simpl. intros H.
  apply Z.quot_div_nonneg; lia.
Qed.

Lemma below_2_63_fits (l : Q) :
  (l < inject_Z (2 ^ 63))%Q -> Qfloor l <= MaxInt64.
Proof.
  destruct l as [n d]. unfold Qlt, Qfloor, MaxInt64. simpl. intros H.
  assert (n / Z.pos d < 2 ^ 63) by (apply Z.div_lt_upper_bound; lia). lia.
Qed.

(** C7, amended. For every non-negative rate the burst lies in [1, 65536];
    the burst of rate 0 is 65536; and for a rate above 0 and below 2^63 the
    burst is the rate divided by 20, rounded down to an integer, clamped to
    [1, 65536]. *)
Theorem GetGoodBurst_spec_below_2_63 (l : rate_Limit) :
  (0 <= l)%Q ->
  1 <= GetGoodBurst l <= 65536
  /\ GetGoodBurst 0%Q = 65536
  /\ ((0 < l)%Q -> (l < inject_Z (2 ^ 63))%Q ->
      GetGoodBurst l = Z.max 1 (Z.min 65536 (Qfloor (l / inject_Z 20)))).
Proof.
  intros H0. split; [apply GetGoodBurst_bounds|].
  split; [apply GetGoodBurst_zero; reflexivity|].
  intros Hpos Hlt.
  rewrite GetGoodBurst_rule;
    [| exact Hpos | rewrite truncate_Qfloor by exact H0; now apply below_2_63_fits].
  unfold goodBurst_rule, clamp. rewrite truncate_Qfloor; [reflexivity|].
  apply Qle_shift_div_l; [reflexivity|]. now rewrite Qmult_0_l.
Qed.

End Facts.

(** C7, as the specification states it, fails: the rate 2^63 is above 0 and
    its twentieth clamps to 65536, but an [int64] cannot hold 2^63; where
    the platform turns a float that does not fit into the smallest [int64],
    as amd64 does, [int64(l) / 20] is negative and the burst is 1. *)
Lemma GetGoodBurst_rule_fails_at_2_63 :
  let l := inject_Z (2 ^ 63) in
  (0 < l)%Q
  /\ GetGoodBurst (O := Double.outside) l = 1
  /\ Z.max 1 (Z.min 65536 (Qfloor (l / inject_Z 20))) = 65536.
Proof. cbv zeta. repeat split. Qed.

(** C7, amended, at 1250.5 bytes per second: bursts of 62 bytes. *)
Lemma GetGoodBurst_spec_below_2_63_witness :
  let l := (2501 # 2)%Q in
  ((0 <= l)%Q /\ (0 < l)%Q /\ (l < inject_Z (2 ^ 63))%Q)
  /\ 1 <= GetGoodBurst (O := Double.outside) l <= 65536
  /\ GetGoodBurst (O := Double.outside) 0%Q = 65536
  /\ GetGoodBurst (O := Double.outside) l
     = Z.max 1 (Z.min 65536 (Qfloor (l / inject_Z 20)))
  /\ GetGoodBurst (O := Double.outside) l = 62.
Proof.
  cbv zeta.
  assert (H0 : (0 <= 2501 # 2)%Q) by (vm_compute; discriminate).
  assert (H1 : (0 < 2501 # 2)%Q) by reflexivity.
  assert (H2 : (2501 # 2 < inject_Z (2 ^ 63))%Q) by reflexivity.
  destruct (GetGoodBurst_spec_below_2_63 (O := Double.outside) (2501 # 2) H0)
    as (Hb & Hz & Hr).
  split; [split; [exact H0 | split; [exact H1 | exact H2]] |].
  split; [exact Hb|]. split; [exact Hz|].
  split; [exact (Hr H1 H2) | reflexivity].
Defined.

(** 10 Mbps is 1250000 bytes per second: bursts of 62500 bytes. *)
Example GetGoodBurst_10Mbps :
  GetGoodBurst (O := Double.outside) (inject_Z 1250000) = 62500.
Proof. reflexivity. Qed.

End BurstFacts.

(** ** The rate-limited connection *)

Module ConnFacts.

Import Limit.

Section Facts.

Context {O : Outside}.

(** The two directions of a connection, and what [Read] and [Write] hand to
    [rateLimitLoop] for each. *)
Inductive direction := reading | writing.

Definition notBefore_of (d : direction) : TimePtr :=
  match d with reading => p_readNotBefore | writing => p_writeNotBefore end.

Definition deadline_of (d : direction) : TimePtr :=
  match d with reading => p_readDeadline | writing => p_writeDeadline end.

Definition primitive (d : direction) : Action Conn :=
  match d with reading => conn_Read | writing => conn_Write end.

Definition transfer (d : direction) (b : list byte)
  : M State (Z * option error * list byte) :=
  match d with reading => Read b | writing => Write b end.

Lemma transfer_rateLimitLoop d b :
  transfer d b = rateLimitLoop (notBefore_of d) (deadline_of d) (primitive d) b.
Proof. destruct d; reflexivity. Qed.

(** The wait target the call computes before its I/O (the zero time when
    there is none), from the clock reading [now], the direction's not-before
    timestamp and its deadline. *)
Definition wait_target (now nb dl : Time) : Time :=
  if Before now nb then
    if negb (IsZero dl) && Before dl nb then dl else nb
  else zeroTime.

Definition pre_target (d : direction) (c : LimitedConnection) (w : World)
  : Time :=
  wait_target (clock (ticks w))
    (deref (notBefore_of d) c) (deref (deadline_of d) c).

(** The case the select of a [waitUntil t] that starts on connection [c] in
    world [w] takes. *)
Definition wait_outcome (c : LimitedConnection) (w : World) (t : Time)
  : Fired :=
  select_case (close c) (Sub t (clock (ticks w))) (chosen (selects w)).

(** The world once [waitUntil t], started in [w], has returned through case
    [f]. *)
Definition waited (t : Time) (f : Fired) (w : World) : World :=
  log (EvWait t f) (selected (tick w)).

Lemma waitUntil_run t c w :
  waitUntil t (c, w) =
  Done (if wait_outcome c w t is CloseFired then true else false)
       (if wait_outcome c w t is CloseFired then set_close ChanClosed c else c,
        waited t (wait_outcome c w t) w).
Proof.
  unfold waitUntil, bind, lift, time_Now, select_timer_close, wait_outcome,
    waited. cbn. reflexivity.
Qed.

Lemma len_nonempty {A} (b : list A) : b <> [] -> (len b =? 0) = false.
Proof.
  intros H. destruct b; [congruence|]. unfold len. simpl length.
  apply Z.eqb_neq. lia.
Qed.

(** *** Running the model step by step *)

Lemma run_ret {S A B} (a : A) (k : A -> M S B) s : bind (ret a) k s = k a s.
Proof. reflexivity. Qed.

Lemma run_Now {B} (k : Time -> M State B) c w :
  bind (lift time_Now) k (c, w) = k (clock (ticks w)) (c, tick w).
Proof. reflexivity. Qed.

Lemma run_load {B} p (k : Time -> M State B) c w :
  bind (load p) k (c, w) = k (deref p c) (c, w).
Proof. reflexivity. Qed.

Lemma run_store {B} p t (k : unit -> M State B) c w :
  bind (store p t) k (c, w) = k tt (assign p t c, w).
Proof. reflexivity. Qed.

Lemma run_this {B} (k : LimitedConnection -> M State B) c w :
  bind this k (c, w) = k c (c, w).
Proof. reflexivity. Qed.

Lemma run_Burst {B} l lim (k : Z -> M State B) c w :
  limiters w !! l = Some lim ->
  bind (lift (limiter_Burst l)) k (c, w) = k (Burst lim) (c, w).
Proof.
  intros H. unfold bind, lift, limiter_Burst. rewrite H. reflexivity.
Qed.

(** The world once [n] tokens have been reserved at [now] from the limiter
    at [l], leaving it as [lim'] and giving reservation [r]. *)
Definition reserved (l : nat) (now : Time) (n : Z) (r : Reservation)
    (lim' : Limiter) (w : World) : World :=
  log (EvReserve now n r) (set_limiters (<[l := lim']> (limiters w)) w).

Lemma run_ReserveN {B} l lim now n r lim' (k : Reservation -> M State B) c w :
  limiters w !! l = Some lim -> ReserveN lim now n = (r, lim') ->
  bind (lift (limiter_ReserveN l now n)) k (c, w) =
  k r (c, reserved l now n r lim' w).
Proof.
  intros H E. unfold bind, lift, limiter_ReserveN. rewrite H, E. reflexivity.
Qed.

Lemma run_call {B} (act : Action Conn) chunk n err data i
    (k : Z * option error * list byte -> M State B) c w :
  act (inner c) chunk = (n, err, data, i) ->
  bind (call act chunk) k (c, w) =
  k (n, err, data) (set_inner i c, log (EvIO chunk n err) w).
Proof. intros E. unfold bind, call. rewrite E. reflexivity. Qed.

(** A wait that is not needed, or that the timer ends. *)
Lemma run_wait_passes {B} (until t : Time) (k : bool -> M State B) c w :
  IsZero until = true \/ wait_outcome c w t = TimerFired ->
  bind (if negb (IsZero until) then waitUntil t else ret false) k (c, w) =
  k false (c, if IsZero until then w else waited t TimerFired w).
Proof.
  intros H. destruct (IsZero until) eqn:E; cbn [negb]; [reflexivity|].
  destruct H as [H | H]; [discriminate|].
  unfold bind. rewrite waitUntil_run, H. reflexivity.
Qed.

(** A wait that the close signal ends. *)
Lemma run_wait_closed {B} (until t : Time) (k : bool -> M State B) c w :
  IsZero until = false -> wait_outcome c w t = CloseFired ->
  bind (if negb (IsZero until) then waitUntil t else ret false) k (c, w) =
  k true (set_close ChanClosed c, waited t CloseFired w).
Proof.
  intros E H. rewrite E. cbn [negb].
  unfold bind. rewrite waitUntil_run, H. reflexivity.
Qed.

Lemma run_slice_from_0 {S A B} (b : list A) (k : list A -> M S B) s :
  bind (slice_from b 0) k s = k b s.
Proof.
  unfold slice_from. replace (len b <? 0) with false; [reflexivity|].
  symmetry. apply Z.ltb_ge. unfold len. lia.
Qed.

Lemma run_slice_to {S A B} (b : list A) hi (k : list A -> M S B) s :
  0 <= hi <= len b ->
  bind (slice_to b hi) k s = k (firstn (Z.to_nat hi) b) s.
Proof.
  intros H. unfold slice_to.
  replace (hi <? 0) with false by (symmetry; apply Z.ltb_ge; lia).
  replace (len b <? hi) with false by (symmetry; apply Z.ltb_ge; lia).
  reflexivity.
Qed.

(** *** The phases of a call *)

(** A call passes its wait before the I/O when it has no wait target or when
    the select of the wait goes to the timer. *)
Definition passes_prewait (d : direction) (c : LimitedConnection) (w : World)
  : Prop :=
  IsZero (pre_target d c w) = true
  \/ wait_outcome c (tick w) (pre_target d c w) = TimerFired.

(** The world in which such a call reaches its I/O. *)
Definition before_io (d : direction) (c : LimitedConnection) (w : World)
  : World :=
  if IsZero (pre_target d c w) then tick w
  else waited (pre_target d c w) TimerFired (tick w).

(** The chunk the call hands to the wrapped connection. *)
Definition chunk_size (lim : Limiter) (b : list byte) : Z :=
  Z.min (Burst lim) (len b).

Definition chunk_of (lim : Limiter) (b : list byte) : list byte :=
  firstn (Z.to_nat (chunk_size lim b)) b.

Lemma len_chunk_of lim b :
  0 <= Burst lim -> len (chunk_of lim b) = chunk_size lim b.
Proof.
  intros H. unfold chunk_of, chunk_size, len.
  rewrite length_firstn. unfold len. lia.
Qed.

Lemma min_as_if burst l :
  (if burst >? l - 0 then l - 0 else burst) = Z.min burst l.
Proof. rewrite Z.sub_0_r. destruct (Z.gtb_spec burst l); lia. Qed.

(** What [rateLimitLoop] does once the I/O has transferred [n] bytes, not
    zero, with result [err], the buffer being [b] by then: the reservation
    and what follows it. *)
Definition settle (notBefore deadline : TimePtr) (l : nat) (n : Z)
    (err : option error) (b : list byte)
  : M State (Z * option error * list byte) :=
  let cntr := 0 + n in
  let until := zeroTime in
  let! now := lift time_Now in
  let! r := lift (limiter_ReserveN l now n) in
  let act := Add now (DelayFrom r now) in
  let! dl := load deadline in
  let after (until : Time) :=
    let! closed :=
      if negb (IsZero until) then waitUntil act else ret false in
    if closed then ret (cntr, Some io_ErrClosedPipe, b)
    else ret (cntr, err, b) in
  if Before now act then
    if negb (IsZero dl) && Before dl act then
      let! _ := store notBefore act in
      ret (cntr, Some (err_timeoutError timeoutError_lit), b)
    else after act
  else after until.

Lemma limiters_before_io d c w : limiters (before_io d c w) = limiters w.
Proof. unfold before_io. destruct (IsZero _); reflexivity. Qed.

(** A call on a non-empty buffer that passes its wait reaches the I/O: it
    calls the wrapped connection's primitive on the chunk, returns at once
    if nothing was transferred, and goes on to the reservation otherwise. *)
Lemma transfer_to_io d b c w lim n err data i :
  b <> [] -> passes_prewait d c w ->
  limiters w !! limiter c = Some lim -> 0 <= Burst lim ->
  primitive d (inner c) (chunk_of lim b) = (n, err, data, i) ->
  transfer d b (c, w) =
  (if n =? 0 then ret (0, err, write_back b 0 data)
   else settle (notBefore_of d) (deadline_of d) (limiter c) n err
          (write_back b 0 data))
    (set_inner i c, log (EvIO (chunk_of lim b) n err) (before_io d c w)).
Proof.
  intros Hb Hp Hl Hburst Hio.
  rewrite transfer_rateLimitLoop. unfold rateLimitLoop.
  rewrite (len_nonempty b Hb).
  rewrite run_Now, run_load, run_load.
  fold (wait_target (clock (ticks w)) (deref (notBefore_of d) c)
          (deref (deadline_of d) c)).
  fold (pre_target d c w).
  rewrite (run_wait_passes _ _ _ _ _ Hp). fold (before_io d c w).
  cbv iota. rewrite run_this.
  rewrite (run_Burst _ lim) by (now rewrite limiters_before_io).
  rewrite min_as_if, run_slice_from_0.
  rewrite run_slice_to by (unfold len; lia).
  fold (chunk_size lim b). fold (chunk_of lim b).
  rewrite (run_call _ _ _ _ _ _ _ _ _ Hio).
  reflexivity.
Qed.

(** A call whose wait before the I/O is ended by the close signal. *)
Lemma transfer_closed_in_prewait d b c w :
  b <> [] ->
  IsZero (pre_target d c w) = false ->
  wait_outcome c (tick w) (pre_target d c w) = CloseFired ->
  transfer d b (c, w) =
  Done (0, Some io_ErrClosedPipe, b)
       (set_close ChanClosed c, waited (pre_target d c w) CloseFired (tick w)).
Proof.
  intros Hb Ht Hf.
  rewrite transfer_rateLimitLoop. unfold rateLimitLoop.
  rewrite (len_nonempty b Hb).
  rewrite run_Now, run_load, run_load.
  fold (wait_target (clock (ticks w)) (deref (notBefore_of d) c)
          (deref (deadline_of d) c)).
  fold (pre_target d c w).
  rewrite (run_wait_closed _ _ _ _ _ Ht Hf). reflexivity.
Qed.

(** The reservation falls after the deadline: the call leaves with a
    timeout and the instant in the not-before timestamp. *)
Lemma settle_timeout nb dl l lim n err b c w r lim' :
  limiters w !! l = Some lim ->
  ReserveN lim (clock (ticks w)) n = (r, lim') ->
  Before (clock (ticks w))
    (Add (clock (ticks w)) (DelayFrom r (clock (ticks w)))) = true ->
  IsZero (deref dl c) = false ->
  Before (deref dl c)
    (Add (clock (ticks w)) (DelayFrom r (clock (ticks w)))) = true ->
  settle nb dl l n err b (c, w) =
  Done (n, Some (err_timeoutError timeoutError_lit), b)
       (assign nb (Add (clock (ticks w)) (DelayFrom r (clock (ticks w)))) c,
        reserved l (clock (ticks w)) n r lim' (tick w)).
Proof.
  intros Hl Hr Hnow Hz Hdl. unfold settle. cbv zeta.
  rewrite run_Now, (run_ReserveN l lim _ n r lim') by assumption.
  rewrite run_load, Hnow, Hz, Hdl. cbn [negb andb].
  rewrite run_store. destruct n; reflexivity.
Qed.

(** What a call leaves in the log from its I/O on: the I/O alone, or the
    I/O and the reservation for the bytes transferred, or these two and a
    wait until the instant the reservation gave. *)
Inductive io_then_settle (chunk : list byte) (n : Z) (err : option error)
  : list Event -> Prop :=
| io_alone :
    io_then_settle chunk n err [EvIO chunk n err]
| io_reserve now r :
    io_then_settle chunk n err [EvIO chunk n err; EvReserve now n r]
| io_reserve_wait now r f :
    io_then_settle chunk n err
      [EvIO chunk n err; EvReserve now n r;
       EvWait (Add now (DelayFrom r now)) f].

Definition is_io (e : Event) : bool :=
  match e with EvIO _ _ _ => true | _ => false end.

Lemma io_then_settle_one_io chunk n err evs :
  io_then_settle chunk n err evs -> filter is_io evs = [EvIO chunk n err].
Proof. intros []; reflexivity. Qed.

Lemma settle_log nb dl l lim n err b c w :
  limiters w !! l = Some lim ->
  exists res c' w' post,
    settle nb dl l n err b (c, w) = Done res (c', w')
    /\ trace w' = trace w ++ post
    /\ fst (fst res) = n
    /\ inner c' = inner c
    /\ limiter c' = limiter c
    /\ (forall p, p <> nb -> deref p c' = deref p c)
    /\ forall chunk, io_then_settle chunk n err (EvIO chunk n err :: post).
Proof.
  intros Hl. unfold settle. cbv zeta.
  destruct (ReserveN lim (clock (ticks w)) n) as [r lim'] eqn:Hr.
  rewrite run_Now, (run_ReserveN l lim _ n r lim') by assumption.
  rewrite run_load.
  set (now := clock (ticks w)). set (act := Add now (DelayFrom r now)).
  assert (Hn : 0 + n = n) by lia.
  destruct (Before now act).
  - destruct (negb (IsZero (deref dl c)) && Before (deref dl c) act).
    + rewrite run_store. do 4 eexists.
      split; [reflexivity|]. split; [reflexivity|].
      split; [exact Hn|]. split; [destruct nb; reflexivity|].
      split; [destruct nb; reflexivity|].
      split; [intros p Hp; destruct nb, p; congruence || reflexivity|].
      intros chunk. apply io_reserve.
    + destruct (IsZero act); cbn [negb].
      * rewrite run_ret.
        do 4 eexists. split; [reflexivity|]. split; [reflexivity|].
        split; [exact Hn|]. split; [reflexivity|].
        split; [reflexivity|]. split; [reflexivity|].
        intros chunk. apply io_reserve.
      * unfold bind. rewrite waitUntil_run.
        destruct (wait_outcome _ _ act) eqn:Hf;
          do 4 eexists;
          (split; [reflexivity|]); (split; [cbn; rewrite <- app_assoc; reflexivity|]);
          (split; [exact Hn|]); (split; [reflexivity|]);
          (split; [reflexivity|]); (split; [reflexivity|]);
          intros chunk; apply io_reserve_wait.
  - cbn [IsZero zeroTime Z.eqb negb]. rewrite run_ret.
    do 4 eexists. split; [reflexivity|]. split; [reflexivity|].
    split; [exact Hn|]. split; [reflexivity|].
    split; [reflexivity|]. split; [reflexivity|].
    intros chunk. apply io_reserve.
Qed.

(** The events of the wait before the I/O of a call that passes it. *)
Definition prewait_events (d : direction) (c : LimitedConnection) (w : World)
  : list Event :=
  if IsZero (pre_target d c w) then []
  else [EvWait (pre_target d c w) TimerFired].

Lemma trace_before_io d c w :
  trace (before_io d c w) = trace w ++ prewait_events d c w.
Proof.
  unfold before_io, prewait_events.
  destruct (IsZero _); cbn; [now rewrite app_nil_r | reflexivity].
Qed.

(** Every call on a non-empty buffer that passes its wait returns, having
    called the primitive once, on the chunk. *)
Lemma transfer_log d b c w lim :
  b <> [] -> passes_prewait d c w ->
  limiters w !! limiter c = Some lim -> 0 <= Burst lim ->
  exists res c' w' evs,
    transfer d b (c, w) = Done res (c', w')
    /\ trace w' = trace (before_io d c w) ++ evs
    /\ io_then_settle (chunk_of lim b)
         (fst (fst res))
         (snd (fst (fst (primitive d (inner c) (chunk_of lim b))))) evs
    /\ fst (fst res) = fst (fst (fst (primitive d (inner c) (chunk_of lim b))))
    /\ inner c' = snd (primitive d (inner c) (chunk_of lim b)).
Proof.
  intros Hb Hp Hl Hburst.
  destruct (primitive d (inner c) (chunk_of lim b)) as [[[n err] data] i] eqn:Hio.
  rewrite (transfer_to_io d b c w lim n err data i Hb Hp Hl Hburst Hio).
  cbn [fst snd].
  destruct (Z.eqb_spec n 0) as [-> | Hn].
  - do 4 eexists. split; [reflexivity|]. split; [reflexivity|].
    split; [apply io_alone|]. split; reflexivity.
  - destruct (settle_log (notBefore_of d) (deadline_of d) (limiter c) lim n err
                (write_back b 0 data) (set_inner i c)
                (log (EvIO (chunk_of lim b) n err) (before_io d c w)))
      as (res & c' & w' & post & Hrun & Htr & Hres & Hin & _ & _ & Hshape).
    { cbn. now rewrite limiters_before_io. }
    exists res, c', w', (EvIO (chunk_of lim b) n err :: post).
    split; [exact Hrun|]. split.
    { rewrite Htr. cbn. now rewrite <- app_assoc. }
    rewrite Hres. split; [apply Hshape|]. split; [reflexivity | exact Hin].
Qed.

(** *** When a wait target is established, and which case the select takes *)

(** With the clock at or after the zero instant, a call made before the
    direction's not-before timestamp has a wait target. *)
Lemma pre_target_established d c w :
  0 <= clock (ticks w) ->
  Before (clock (ticks w)) (deref (notBefore_of d) c) = true ->
  IsZero (pre_target d c w) = false.
Proof.
  unfold pre_target, wait_target, Before, IsZero. intros H0 Hb. rewrite Hb.
  apply Z.ltb_lt in Hb.
  destruct (negb (deref (deadline_of d) c =? 0)) eqn:Hz; cbn [andb].
  - destruct (deref (deadline_of d) c <? deref (notBefore_of d) c).
    + now apply negb_true_iff in Hz.
    + apply Z.eqb_neq. lia.
  - apply Z.eqb_neq. lia.
Qed.

(** A wait on an open connection for an instant still ahead ends on the
    close signal exactly when the outside has a Close fire it before the
    timer. *)
Lemma wait_outcome_open c w t :
  close c = ChanOpen -> clock (ticks w) < t ->
  wait_outcome c w t = chosen (selects w).
Proof.
  intros Hc Ht. unfold wait_outcome, select_case, Sub, MinInt64, MaxInt64.
  rewrite Hc.
  replace (0 <? _) with true; [reflexivity|]. symmetry. apply Z.ltb_lt. lia.
Qed.

(** *** Calls that do not reach the I/O, and what every call leaves alone *)

(** A zero-length Read or Write goes straight to the wrapped connection. *)
Lemma transfer_zero_length d c w :
  transfer d [] (c, w) =
  let '(n, err, data, i) := primitive d (inner c) [] in
  Done (n, err, data) (set_inner i c, log (EvIO [] n err) w).
Proof. rewrite transfer_rateLimitLoop. reflexivity. Qed.

Lemma transfer_prefix d b c w :
  b <> [] -> passes_prewait d c w ->
  transfer d b (c, w) =
  (let! burst := lift (limiter_Burst (limiter c)) in
   let burst := if burst >? len b - 0 then len b - 0 else burst in
   let! rest := slice_from b 0 in
   let! chunk := slice_to rest burst in
   let! (n, err, data) := call (primitive d) chunk in
   if n =? 0 then ret (0, err, write_back b 0 data)
   else settle (notBefore_of d) (deadline_of d) (limiter c) n err
          (write_back b 0 data))
    (c, before_io d c w).
Proof.
  intros Hb Hp.
  rewrite transfer_rateLimitLoop. unfold rateLimitLoop.
  rewrite (len_nonempty b Hb).
  rewrite run_Now, run_load, run_load.
  fold (wait_target (clock (ticks w)) (deref (notBefore_of d) c)
          (deref (deadline_of d) c)).
  fold (pre_target d c w).
  rewrite (run_wait_passes _ _ _ _ _ Hp). fold (before_io d c w).
  cbv iota. rewrite run_this. reflexivity.
Qed.

(** With a nil limiter the call panics when it asks for the burst. *)
Lemma transfer_nil_limiter d b c w :
  b <> [] -> passes_prewait d c w ->
  limiters w !! limiter c = None ->
  transfer d b (c, w) = Panicked NilDereference.
Proof.
  intros Hb Hp Hl. rewrite (transfer_prefix d b c w Hb Hp).
  unfold bind at 1. unfold lift, limiter_Burst.
  rewrite limiters_before_io, Hl. reflexivity.
Qed.

(** With a negative burst the call panics when it slices the buffer. *)
Lemma transfer_negative_burst d b c w lim :
  b <> [] -> passes_prewait d c w ->
  limiters w !! limiter c = Some lim -> Burst lim < 0 ->
  transfer d b (c, w) = Panicked SliceBoundsOutOfRange.
Proof.
  intros Hb Hp Hl Hneg. rewrite (transfer_prefix d b c w Hb Hp).
  rewrite (run_Burst _ lim) by (now rewrite limiters_before_io).
  rewrite min_as_if, run_slice_from_0.
  unfold bind, slice_to.
  replace (Z.min (Burst lim) (len b) <? 0) with true; [reflexivity|].
  symmetry. apply Z.ltb_lt. lia.
Qed.

(** Whatever path a call takes, it keeps the connection's limiter pointer,
    and of the four timestamps it can only change its own direction's
    not-before. *)
Lemma transfer_frame d b c w res c' w' :
  transfer d b (c, w) = Done res (c', w') ->
  limiter c' = limiter c
  /\ forall p, p <> notBefore_of d -> deref p c' = deref p c.
Proof.
  destruct b as [|x b'].
  { rewrite transfer_zero_length.
    destruct (primitive d (inner c) []) as [[[n err] data] i].
    intros H. inversion H; subst. split; [reflexivity|].
    intros p _. destruct p; reflexivity. }
  set (b := x :: b'). assert (Hb : b <> []) by discriminate.
  destruct (IsZero (pre_target d c w)) eqn:Hz;
    [| destruct (wait_outcome c (tick w) (pre_target d c w)) eqn:Ho].
  3: { rewrite (transfer_closed_in_prewait d b c w Hb Hz Ho).
       intros H. inversion H; subst. split; [reflexivity|].
       intros p _. destruct p; reflexivity. }
  all: assert (Hp : passes_prewait d c w)
         by (unfold passes_prewait; auto).
  all: destruct (limiters w !! limiter c) as [lim|] eqn:Hl;
         [| rewrite (transfer_nil_limiter d b c w Hb Hp Hl); discriminate].
  all: destruct (Z.lt_ge_cases (Burst lim) 0) as [Hneg | Hpos];
         [rewrite (transfer_negative_burst d b c w lim Hb Hp Hl Hneg);
          discriminate|].
  all: destruct (primitive d (inner c) (chunk_of lim b))
         as [[[n err] data] i] eqn:Hio.
  all: rewrite (transfer_to_io d b c w lim n err data i Hb Hp Hl Hpos Hio).
  all: destruct (n =? 0);
         [ intros H; inversion H; subst; split; [reflexivity|];
           intros p _; destruct p; reflexivity |].
  all: destruct (settle_log (notBefore_of d) (deadline_of d) (limiter c) lim
                   n err (write_back b 0 data) (set_inner i c)
                   (log (EvIO (chunk_of lim b) n err) (before_io d c w)))
         as (res1 & c1 & w1 & post & Hrun & _ & _ & _ & Hlim & Hfr & _);
         [cbn; now rewrite limiters_before_io|].
  all: rewrite Hrun; intros H; inversion H; subst.
  all: split; [exact Hlim|].
  all: intros p Hne; rewrite (Hfr p Hne); destruct p; reflexivity.
Qed.

(** *** The properties of a call *)

(** C1. On a Read or Write with a non-empty buffer that reaches its I/O and
    transfers [n] bytes, not zero: if the reservation for these bytes gives
    an instant [act] after the clock reading it was made at, and the
    direction's deadline is not the zero time and is before [act], then the
    call returns [n] and a [timeoutError] (whose [Timeout] and [Temporary]
    are true) and has stored [act] in the direction's not-before timestamp;
    it does not wait for [act]: the reservation is the last thing it does,
    no select runs after the I/O; and it leaves the close signal and the
    wrapped connection as the I/O left them, the limiter holding the
    reservation. *)
Theorem deadline_before_reservation_times_out
    d b c w lim n err data i r lim' :
  b <> [] -> passes_prewait d c w ->
  limiters w !! limiter c = Some lim -> 0 <= Burst lim ->
  primitive d (inner c) (chunk_of lim b) = (n, err, data, i) -> n <> 0 ->
  let now := clock (ticks (before_io d c w)) in
  ReserveN lim now n = (r, lim') ->
  let act := Add now (DelayFrom r now) in
  Before now act = true ->
  IsZero (deref (deadline_of d) c) = false ->
  Before (deref (deadline_of d) c) act = true ->
  exists e c' w',
    transfer d b (c, w) =
      Done (n, Some (err_timeoutError e), write_back b 0 data) (c', w')
    /\ Timeout e = true /\ Temporary e = true
    /\ deref (notBefore_of d) c' = act
    /\ trace w' = trace (before_io d c w)
                    ++ [EvIO (chunk_of lim b) n err; EvReserve now n r]
    /\ selects w' = selects (before_io d c w)
    /\ close c' = close c
    /\ inner c' = i
    /\ limiters w' !! limiter c' = Some lim'.
Proof.
  intros Hb Hp Hl Hburst Hio Hn now Hr act Hnow Hz Hdl.
  rewrite (transfer_to_io d b c w lim n err data i Hb Hp Hl Hburst Hio).
  apply Z.eqb_neq in Hn. rewrite Hn.
  rewrite (settle_timeout _ _ _ lim n err _ _ _ r lim');
    [| cbn; now rewrite limiters_before_io | assumption..].
  exists timeoutError_lit. do 2 eexists.
  split; [reflexivity|]. split; [reflexivity|]. split; [reflexivity|].
  split; [destruct d; reflexivity|].
  split; [cbn; now rewrite <- app_assoc|].
  split; [reflexivity|]. split; [destruct d; reflexivity|].
  split; [destruct d; reflexivity|].
  destruct d; cbn; apply lookup_insert_eq.
Qed.

(** C2. A second [Close] panics: the first one closes the channel
    [c.close], and [close] on a closed channel panics before the wrapped
    connection is reached. *)
Theorem second_Close_panics (c : LimitedConnection) (w : World) :
  exists r c1,
    Close (set_close ChanOpen c, w) = Done r (c1, w)
    /\ close c1 = ChanClosed
    /\ Close (c1, w) = Panicked CloseOfClosedChannel.
Proof.
  unfold Close, bind, close_chan, on_inner, ret. cbn.
  destruct (conn_Close (inner c)) as [r i].
  do 2 eexists. split; [reflexivity|]. split; reflexivity.
Qed.

(** C3. On a Read or Write with a non-empty buffer that has a wait target
    before its I/O, if the select of that wait goes to the close signal (the
    signal fires before the timer for the target does), the call returns 0
    and [io.ErrClosedPipe], leaves the buffer as it was, and has done
    nothing but wait: no call to the wrapped connection, no reservation. *)
Theorem closed_before_wait_target d b c w :
  b <> [] ->
  IsZero (pre_target d c w) = false ->
  wait_outcome c (tick w) (pre_target d c w) = CloseFired ->
  exists c' w',
    transfer d b (c, w) = Done (0, Some io_ErrClosedPipe, b) (c', w')
    /\ trace w' = trace w ++ [EvWait (pre_target d c w) CloseFired]
    /\ inner c' = inner c
    /\ limiters w' = limiters w.
Proof.
  intros Hb Ht Hf.
  rewrite (transfer_closed_in_prewait d b c w Hb Ht Hf).
  do 2 eexists. split; [reflexivity|]. repeat split.
Qed.

Lemma filter_is_io_prewait d c w : filter is_io (prewait_events d c w) = [].
Proof. unfold prewait_events. destruct (IsZero _); reflexivity. Qed.

(** C8. A Read or Write with a non-empty buffer of length L that passes its
    wait before the I/O returns, and among the events of the call there is
    exactly one call of the wrapped connection's primitive, on the first
    min(burst, L) bytes of the buffer; the wrapped connection is left as
    that one call left it. *)
Theorem one_io_call_on_one_chunk d b c w lim :
  b <> [] -> passes_prewait d c w ->
  limiters w !! limiter c = Some lim -> 0 <= Burst lim ->
  exists res c' w' evs n err,
    transfer d b (c, w) = Done res (c', w')
    /\ trace w' = trace w ++ evs
    /\ filter is_io evs = [EvIO (chunk_of lim b) n err]
    /\ chunk_of lim b = firstn (Z.to_nat (Z.min (Burst lim) (len b))) b
    /\ len (chunk_of lim b) = Z.min (Burst lim) (len b)
    /\ inner c' = snd (primitive d (inner c) (chunk_of lim b)).
Proof.
  intros Hb Hp Hl Hburst.
  destruct (transfer_log d b c w lim Hb Hp Hl Hburst)
    as (res & c' & w' & evs & Hrun & Htr & Hshape & _ & Hin).
  exists res, c', w', (prewait_events d c w ++ evs). do 2 eexists.
  split; [exact Hrun|].
  split; [now rewrite Htr, trace_before_io, app_assoc|].
  split.
  { rewrite filter_app, filter_is_io_prewait.
    apply (io_then_settle_one_io _ _ _ _ Hshape). }
  split; [reflexivity|].
  split; [now apply len_chunk_of | exact Hin].
Qed.

(** C9. On a Read or Write with a non-empty buffer that passes its wait
    before the I/O, if the call of the wrapped connection's primitive
    transfers zero bytes, the Read or Write returns 0 with the error and the
    bytes of that call and nothing more happens: the I/O is the last event,
    the limiters are as they were, and so are the four timestamps of the
    connection and its close signal. *)
Theorem zero_bytes_reserve_nothing d b c w lim err data i :
  b <> [] -> passes_prewait d c w ->
  limiters w !! limiter c = Some lim -> 0 <= Burst lim ->
  primitive d (inner c) (chunk_of lim b) = (0, err, data, i) ->
  exists c' w',
    transfer d b (c, w) = Done (0, err, write_back b 0 data) (c', w')
    /\ limiters w' = limiters w
    /\ trace w' = trace (before_io d c w) ++ [EvIO (chunk_of lim b) 0 err]
    /\ (forall p, deref p c' = deref p c)
    /\ close c' = close c
    /\ inner c' = i.
Proof.
  intros Hb Hp Hl Hburst Hio.
  rewrite (transfer_to_io d b c w lim 0 err data i Hb Hp Hl Hburst Hio).
  cbn [Z.eqb]. do 2 eexists. split; [reflexivity|].
  split; [cbn; apply limiters_before_io|].
  split; [reflexivity|].
  split; [intros []; reflexivity|]. split; reflexivity.
Qed.

(** [untouched_in d c0 c]: [c] is the connection [c0] after some calls of
    its methods, none of them a Read or Write in direction [d] and none of
    them a Close. *)
Inductive untouched_in (d : direction) (c0 : LimitedConnection)
  : LimitedConnection -> Prop :=
| untouched_fresh : untouched_in d c0 c0
| untouched_transfer d' b w res c c' w' :
    untouched_in d c0 c -> d' <> d ->
    transfer d' b (c, w) = Done res (c', w') ->
    untouched_in d c0 c'
| untouched_SetReadDeadline t w res c c' w' :
    untouched_in d c0 c ->
    SetReadDeadline t (c, w) = Done res (c', w') ->
    untouched_in d c0 c'
| untouched_SetWriteDeadline t w res c c' w' :
    untouched_in d c0 c ->
    SetWriteDeadline t (c, w) = Done res (c', w') ->
    untouched_in d c0 c'
| untouched_SetDeadline t w res c c' w' :
    untouched_in d c0 c ->
    SetDeadline t (c, w) = Done res (c', w') ->
    untouched_in d c0 c'.

Lemma SetReadDeadline_run t c w :
  SetReadDeadline t (c, w) =
  Done (fst (conn_SetReadDeadline (inner c) t))
       (set_inner (snd (conn_SetReadDeadline (inner c) t))
          (assign p_readDeadline t c), w).
Proof.
  unfold SetReadDeadline. rewrite run_store. unfold on_inner.
  cbn [inner assign]. destruct (conn_SetReadDeadline (inner c) t).
  reflexivity.
Qed.

Lemma SetWriteDeadline_run t c w :
  SetWriteDeadline t (c, w) =
  Done (fst (conn_SetWriteDeadline (inner c) t))
       (set_inner (snd (conn_SetWriteDeadline (inner c) t))
          (assign p_writeDeadline t c), w).
Proof.
  unfold SetWriteDeadline. rewrite run_store. unfold on_inner.
  cbn [inner assign]. destruct (conn_SetWriteDeadline (inner c) t).
  reflexivity.
Qed.

(** The deadline setters and [SetDeadline] keep the limiter pointer and the
    two not-before timestamps. *)
Lemma SetDeadline_frame t c w res c' w' :
  SetDeadline t (c, w) = Done res (c', w') ->
  limiter c' = limiter c
  /\ readNotBefore c' = readNotBefore c
  /\ writeNotBefore c' = writeNotBefore c.
Proof.
  unfold SetDeadline, bind. rewrite SetReadDeadline_run.
  destruct (fst (conn_SetReadDeadline (inner c) t)).
  - intros H. inversion H; subst. repeat split.
  - rewrite SetWriteDeadline_run. intros H. inversion H; subst. repeat split.
Qed.

Lemma untouched_in_frame d c0 c :
  untouched_in d c0 c ->
  limiter c = limiter c0
  /\ deref (notBefore_of d) c = deref (notBefore_of d) c0.
Proof.
  induction 1 as [| d' b w res c c' w' _ [IHl IHn] Hne Hrun
                  | t w res c c' w' _ [IHl IHn] Hrun
                  | t w res c c' w' _ [IHl IHn] Hrun
                  | t w res c c' w' _ [IHl IHn] Hrun ].
  - split; reflexivity.
  - destruct (transfer_frame d' b c w res c' w' Hrun) as [Hl Hfr].
    split; [congruence|]. rewrite Hfr; [exact IHn|].
    destruct d, d'; congruence || discriminate.
  - rewrite SetReadDeadline_run in Hrun. inversion Hrun; subst.
    split; [exact IHl | destruct d; exact IHn].
  - rewrite SetWriteDeadline_run in Hrun. inversion Hrun; subst.
    split; [exact IHl | destruct d; exact IHn].
  - destruct (SetDeadline_frame t c w res c' w' Hrun) as (Hl & Hr & Hw).
    split; [congruence|]. destruct d; cbn [notBefore_of deref] in *; congruence.
Qed.

(** No wait target for a direction whose not-before timestamp is the zero
    time, as long as no deadline is set for it or the clock reads at or
    after the zero instant. *)
Lemma pre_target_unset d c w :
  deref (notBefore_of d) c = zeroTime ->
  deref (deadline_of d) c = zeroTime \/ 0 <= clock (ticks w) ->
  pre_target d c w = zeroTime.
Proof.
  intros Hnb H. unfold pre_target, wait_target. rewrite Hnb.
  destruct H as [-> | H].
  - destruct (Before _ _); reflexivity.
  - replace (Before (clock (ticks w)) zeroTime) with false; [reflexivity|].
    symmetry. apply Z.ltb_ge. exact H.
Qed.

(** C10. [NewLimitedConnection] returns a connection whose two not-before
    timestamps and two deadlines are the zero time. So the first Read and
    the first Write on it, whatever was called before in the other direction
    and whatever deadlines were set, have no wait target before the I/O, as
    long as the direction's deadline is still the zero time or the clock
    reads at or after the zero instant; the call goes straight to the I/O:
    its events start with the I/O, and if it waits at all it is after the
    I/O and the reservation, until the instant the reservation gave. *)
Theorem fresh_connection_first_call_has_no_prewait
    (i : Conn) (l : nat) (w : World) (lim : Limiter) :
  limiters w !! l = Some lim ->
  exists c0,
    NewLimitedConnection i l w = Done c0 w
    /\ readNotBefore c0 = zeroTime /\ writeNotBefore c0 = zeroTime
    /\ readDeadline c0 = zeroTime /\ writeDeadline c0 = zeroTime
    /\ forall d c, untouched_in d c0 c ->
       forall b w1 lim1,
         deref (deadline_of d) c = zeroTime \/ 0 <= clock (ticks w1) ->
         limiters w1 !! l = Some lim1 -> 0 <= Burst lim1 ->
         pre_target d c w1 = zeroTime
         /\ exists res c' w' n err evs,
              transfer d b (c, w1) = Done res (c', w')
              /\ trace w' = trace w1 ++ evs
              /\ io_then_settle (chunk_of lim1 b) n err evs.
Proof.
  intros Hl. eexists. split.
  { unfold NewLimitedConnection, bind, limiter_Burst. rewrite Hl. reflexivity. }
  do 4 (split; [reflexivity|]).
  intros d c Hun b w1 lim1 Hclock Hl1 Hburst.
  destruct (untouched_in_frame d _ c Hun) as [Hlc Hnb].
  cbn [limiter] in Hlc.
  assert (Hzero : deref (notBefore_of d) c = zeroTime)
    by (rewrite Hnb; destruct d; reflexivity).
  assert (Ht : pre_target d c w1 = zeroTime)
    by (apply pre_target_unset; assumption).
  split; [exact Ht|].
  destruct b as [|x b'].
  { rewrite transfer_zero_length.
    destruct (primitive d (inner c) []) as [[[n err] data] i'].
    do 6 eexists. split; [reflexivity|]. split; [reflexivity|].
    unfold chunk_of. rewrite firstn_nil. apply io_alone. }
  assert (Hp : passes_prewait d c w1)
    by (left; rewrite Ht; reflexivity).
  rewrite <- Hlc in Hl1.
  destruct (transfer_log d (x :: b') c w1 lim1 ltac:(discriminate) Hp Hl1 Hburst)
    as (res & c' & w' & evs & Hrun & Htr & Hshape & _).
  exists res, c', w'. do 2 eexists. exists evs.
  split; [exact Hrun|]. split; [| exact Hshape].
  rewrite Htr, trace_before_io. unfold prewait_events.
  rewrite Ht. cbn. now rewrite app_nil_r.
Qed.

End Facts.

(** *** The theorems at work on the test doubles *)

#[local] Existing Instance Double.outside.

Import Double.

Definition bucket0 : bucket := {| capacity := 4; pace := 1000; free_at := 0 |}.

Definition first4 : list byte := [x01; x02; x03; x04]%byte.

Example Read_on_conn0 :
  match Read buf6 (conn0, world0) with
  | Done res (c', w') =>
      res = (4, None, buf6)
      /\ inner c' = [8; 0]
      /\ trace w' = [EvIO first4 4 None; EvReserve 1001 4 5001;
                     EvWait 5001 TimerFired]
  | Panicked _ => False
  end.
Proof. vm_compute. repeat split. Qed.

(** C1 on a Read of six bytes with a deadline at 2000 and a bucket that
    makes four bytes ready at 5001. *)
Lemma deadline_before_reservation_times_out_witness :
  (buf6 <> [] /\ passes_prewait reading conn_deadline world0
   /\ limiters world0 !! limiter conn_deadline = Some bucket0
   /\ 0 <= Burst bucket0
   /\ primitive reading (inner conn_deadline) (chunk_of bucket0 buf6)
      = (4, None, first4, [8; 0])
   /\ 4 <> 0
   /\ ReserveN bucket0 1001 4
      = (5001, {| capacity := 4; pace := 1000; free_at := 5001 |})
   /\ Before 1001 5001 = true
   /\ IsZero (deref (deadline_of reading) conn_deadline) = false
   /\ Before (deref (deadline_of reading) conn_deadline) 5001 = true)
  /\ exists e c' w',
       transfer reading buf6 (conn_deadline, world0)
       = Done (4, Some (err_timeoutError e), write_back buf6 0 first4) (c', w')
       /\ Timeout e = true /\ Temporary e = true
       /\ deref (notBefore_of reading) c' = 5001
       /\ trace w' = trace (before_io reading conn_deadline world0)
                       ++ [EvIO (chunk_of bucket0 buf6) 4 None;
                           EvReserve 1001 4 5001]
       /\ selects w' = selects (before_io reading conn_deadline world0)
       /\ close c' = close conn_deadline
       /\ inner c' = [8; 0]
       /\ limiters w' !! limiter c'
          = Some {| capacity := 4; pace := 1000; free_at := 5001 |}.
Proof.
  assert (H1 : buf6 <> []) by discriminate.
  assert (H2 : passes_prewait reading conn_deadline world0)
    by (left; reflexivity).
  assert (H3 : limiters world0 !! limiter conn_deadline = Some bucket0)
    by reflexivity.
  assert (H4 : 0 <= Burst bucket0) by (simpl; lia).
  assert (H5 : primitive reading (inner conn_deadline) (chunk_of bucket0 buf6)
               = (4, None, first4, [8; 0])) by reflexivity.
  assert (H6 : 4 <> 0) by lia.
  assert (H7 : ReserveN bucket0 1001 4
               = (5001, {| capacity := 4; pace := 1000; free_at := 5001 |}))
    by reflexivity.
  assert (H8 : Before 1001 5001 = true) by reflexivity.
  assert (H9 : IsZero (deref (deadline_of reading) conn_deadline) = false)
    by reflexivity.
  assert (H10 : Before (deref (deadline_of reading) conn_deadline) 5001 = true)
    by reflexivity.
  split; [repeat (split; [assumption|]); assumption|].
  exact (deadline_before_reservation_times_out reading buf6 conn_deadline
           world0 bucket0 4 None first4 [8; 0] 5001
           {| capacity := 4; pace := 1000; free_at := 5001 |}
           H1 H2 H3 H4 H5 H6 H7 H8 H9 H10).
Defined.

(** C3 on a Read that owes a delay until 5000, in the world where a Close
    on another goroutine fires the signal during the wait. *)
Lemma closed_before_wait_target_witness :
  (buf6 <> []
   /\ IsZero (pre_target reading DoubleClosing.conn_owing_closing DoubleClosing.world0_closing) = false
   /\ wait_outcome DoubleClosing.conn_owing_closing (tick DoubleClosing.world0_closing)
        (pre_target reading DoubleClosing.conn_owing_closing DoubleClosing.world0_closing) = CloseFired)
  /\ exists c' w',
       transfer reading buf6 (DoubleClosing.conn_owing_closing, DoubleClosing.world0_closing)
       = Done (0, Some io_ErrClosedPipe, buf6) (c', w')
       /\ trace w' = trace DoubleClosing.world0_closing ++ [EvWait 5000 CloseFired]
       /\ inner c' = inner DoubleClosing.conn_owing_closing
       /\ limiters w' = limiters DoubleClosing.world0_closing.
Proof.
  assert (H1 : buf6 <> []) by discriminate.
  assert (H2 : IsZero (pre_target reading DoubleClosing.conn_owing_closing DoubleClosing.world0_closing)
               = false) by reflexivity.
  assert (H3 : wait_outcome DoubleClosing.conn_owing_closing (tick DoubleClosing.world0_closing)
                 (pre_target reading DoubleClosing.conn_owing_closing DoubleClosing.world0_closing)
               = CloseFired) by reflexivity.
  split; [repeat (split; [assumption|]); assumption|].
  exact (closed_before_wait_target reading buf6 DoubleClosing.conn_owing_closing
           DoubleClosing.world0_closing H1 H2 H3).
Defined.

(** C8 on a Write of six bytes through a bucket of burst four. *)
Lemma one_io_call_on_one_chunk_witness :
  (buf6 <> [] /\ passes_prewait writing conn0 world0
   /\ limiters world0 !! limiter conn0 = Some bucket0
   /\ 0 <= Burst bucket0)
  /\ exists res c' w' evs n err,
       transfer writing buf6 (conn0, world0) = Done res (c', w')
       /\ trace w' = trace world0 ++ evs
       /\ filter is_io evs = [EvIO (chunk_of bucket0 buf6) n err]
       /\ chunk_of bucket0 buf6
          = firstn (Z.to_nat (Z.min (Burst bucket0) (len buf6))) buf6
       /\ len (chunk_of bucket0 buf6) = Z.min (Burst bucket0) (len buf6)
       /\ inner c'
          = snd (primitive writing (inner conn0) (chunk_of bucket0 buf6)).
Proof.
  assert (H1 : buf6 <> []) by discriminate.
  assert (H2 : passes_prewait writing conn0 world0) by (left; reflexivity).
  assert (H3 : limiters world0 !! limiter conn0 = Some bucket0)
    by reflexivity.
  assert (H4 : 0 <= Burst bucket0) by (simpl; lia).
  split; [repeat (split; [assumption|]); assumption|].
  exact (one_io_call_on_one_chunk writing buf6 conn0 world0 bucket0
           H1 H2 H3 H4).
Defined.

(** C9 on a Read at the end of the stream. *)
Lemma zero_bytes_reserve_nothing_witness :
  (buf6 <> [] /\ passes_prewait reading conn_eof world0
   /\ limiters world0 !! limiter conn_eof = Some bucket0
   /\ 0 <= Burst bucket0
   /\ primitive reading (inner conn_eof) (chunk_of bucket0 buf6)
      = (0, Some (err_other "EOF"), first4, []))
  /\ exists c' w',
       transfer reading buf6 (conn_eof, world0)
       = Done (0, Some (err_other "EOF"), write_back buf6 0 first4) (c', w')
       /\ limiters w' = limiters world0
       /\ trace w' = trace (before_io reading conn_eof world0)
                       ++ [EvIO (chunk_of bucket0 buf6) 0
                             (Some (err_other "EOF"))]
       /\ (forall p, deref p c' = deref p conn_eof)
       /\ close c' = close conn_eof
       /\ inner c' = [].
Proof.
  assert (H1 : buf6 <> []) by discriminate.
  assert (H2 : passes_prewait reading conn_eof world0) by (left; reflexivity).
  assert (H3 : limiters world0 !! limiter conn_eof = Some bucket0)
    by reflexivity.
  assert (H4 : 0 <= Burst bucket0) by (simpl; lia).
  assert (H5 : primitive reading (inner conn_eof) (chunk_of bucket0 buf6)
               = (0, Some (err_other "EOF"), first4, [])) by reflexivity.
  split; [repeat (split; [assumption|]); assumption|].
  exact (zero_bytes_reserve_nothing reading buf6 conn_eof world0 bucket0
           (Some (err_other "EOF")) first4 [] H1 H2 H3 H4 H5).
Defined.

(** C10 on a connection made over the scripted stream and the bucket at
    pointer 1. *)
Lemma fresh_connection_first_call_has_no_prewait_witness :
  limiters world0 !! 1%nat = Some bucket0
  /\ exists c0,
       NewLimitedConnection [8; 8; 0] 1%nat world0 = Done c0 world0
       /\ readNotBefore c0 = zeroTime /\ writeNotBefore c0 = zeroTime
       /\ readDeadline c0 = zeroTime /\ writeDeadline c0 = zeroTime
       /\ forall d c, untouched_in d c0 c ->
          forall b w1 lim1,
            deref (deadline_of d) c = zeroTime \/ 0 <= clock (ticks w1) ->
            limiters w1 !! 1%nat = Some lim1 -> 0 <= Burst lim1 ->
            pre_target d c w1 = zeroTime
            /\ exists res c' w' n err evs,
                 transfer d b (c, w1) = Done res (c', w')
                 /\ trace w' = trace w1 ++ evs
                 /\ io_then_settle (chunk_of lim1 b) n err evs.
Proof.
  assert (H1 : limiters world0 !! 1%nat = Some bucket0) by reflexivity.
  split; [exact H1|].
  exact (fresh_connection_first_call_has_no_prewait [8; 8; 0] 1%nat world0
           bucket0 H1).
Defined.

End ConnFacts.

(** * Beyond the stated properties *)

(** ** The limit parser: what it accepts, what it refuses, what it returns *)

Module ParseCoverage.

Import Parse ParseFacts.

(** Whatever the input, [parseSuffix] cuts it in two without losing a byte:
    the number string it returns followed by a unit of the table, or by
    nothing, is the input, and the multiplier and divisor are that unit's. *)
Lemma parseSuffix_splits (s : gostring) :
  exists u, In u grammar
            /\ s = fst (fst (parseSuffix s)) ++ str (unit u)
            /\ snd (fst (parseSuffix s)) = mul u
            /\ snd (parseSuffix s) = div u.
Proof.
  unfold parseSuffix, uomSuffixes, parseSuffix_range. cbn [unit mul div].
  repeat match goal with
    | |- context [HasSuffix s ?v] =>
        let E := fresh "E" in
        destruct (HasSuffix s v) eqn:E;
        [ apply HasSuffix_spec in E as [p ->];
          eexists {| unit := _; mul := _; div := _ |};
          split; cycle 1;
          [ cbn [fst snd unit mul div];
            rewrite firstn_drop_suffix; repeat split; reflexivity
          | unfold grammar, uomSuffixes; simpl; tauto ]
        | clear E ]
    end.
  exists no_unit. split; [unfold grammar; apply in_or_app; right; left; reflexivity|].
  cbn. rewrite app_nil_r. repeat split.
Qed.

(** X1. For every input [parseSuffix] returns a number string, a multiplier
    and a divisor such that the number string followed by one of the eight
    units, or by nothing, is the input again; the multiplier and the divisor
    are those of that unit, so the multiplier is at least 1 and the divisor
    is 1 or 8. *)
Theorem parseSuffix_decomposes (s : gostring) :
  exists u, In u grammar
            /\ s = fst (fst (parseSuffix s)) ++ str (unit u)
            /\ snd (fst (parseSuffix s)) = mul u
            /\ snd (parseSuffix s) = div u
            /\ 1 <= mul u
            /\ (div u = 1 \/ div u = 8).
Proof.
  destruct (parseSuffix_splits s) as (u & Hin & Hs & Hm & Hd).
  exists u. repeat (split; [assumption|]).
  unfold grammar, uomSuffixes in Hin. simpl in Hin.
  repeat (destruct Hin as [<- | Hin]); [..| destruct Hin]; simpl; lia.
Qed.

(** *** strconv.ParseInt on every string *)

Abbreviation step := (fun (n : Z) (c : ascii) => n * 10 + digit_val c).

Lemma ParseUint_loop_overflow ds : forall n,
  forallb is_digit ds = true -> 0 <= n <= MaxUint64 ->
  MaxUint64 < fold_left step ds n ->
  ParseUint_loop n ds = (MaxUint64, Some ErrRange).
Proof.
  induction ds as [|c r IH]; intros n Hd Hn Hgt; simpl in *; [lia|].
  apply andb_true_iff in Hd as [Hc Hr]. rewrite Hc.
  pose proof (digit_val_nonneg c) as Hv.
  destruct (Z.leb_spec (MaxUint64 / 10 + 1) n); [reflexivity|].
  destruct (Z.ltb_spec MaxUint64 (n * 10 + digit_val c)); [reflexivity|].
  apply IH; [assumption | lia | assumption].
Qed.

Lemma ParseUint_loop_success s : forall n v,
  ParseUint_loop n s = (v, None) ->
  forallb is_digit s = true /\ v = fold_left step s n.
Proof.
  induction s as [|c r IH]; intros n v H; simpl in *.
  - injection H as <-. split; reflexivity.
  - destruct (is_digit c); [|discriminate].
    destruct (MaxUint64 / 10 + 1 <=? n); [discriminate|].
    destruct (MaxUint64 <? n * 10 + digit_val c); [discriminate|].
    apply IH in H. exact H.
Qed.

Lemma ParseUint_loop_range s : forall n v,
  ParseUint_loop n s = (v, Some ErrRange) -> v = MaxUint64.
Proof.
  induction s as [|c r IH]; intros n v H; simpl in *; [discriminate|].
  destruct (is_digit c); [|discriminate].
  destruct (MaxUint64 / 10 + 1 <=? n); [now injection H|].
  destruct (MaxUint64 <? n * 10 + digit_val c); [now injection H|].
  now apply IH in H.
Qed.

Lemma decimal_nonneg ds : 0 <= decimal ds.
Proof. apply (fold_digits_ge ds 0). lia. Qed.

Lemma ParseInt_minus ds :
  digits ds -> decimal ds <= 2 ^ 63 ->
  ParseInt ("-"%char :: ds) = (- decimal ds, None).
Proof.
  intros [Hne Hd] Hle. unfold ParseInt. cbn [Ascii.eqb Bool.eqb andb orb negb].
  destruct ds as [|c r]; [congruence|]. cbn [ParseUint].
  unfold decimal in *.
  rewrite ParseUint_loop_decimal; [|assumption|lia|unfold MaxUint64; lia].
  destruct (Z.ltb_spec (2 ^ 63) (fold_left step (c :: r) 0)); [lia|].
  reflexivity.
Qed.

Lemma ParseInt_plus ds :
  digits ds -> decimal ds <= MaxInt64 ->
  ParseInt ("+"%char :: ds) = (decimal ds, None).
Proof.
  intros [Hne Hd] Hle. unfold ParseInt. cbn [Ascii.eqb Bool.eqb andb orb negb].
  destruct ds as [|c r]; [congruence|]. cbn [ParseUint].
  unfold decimal, MaxInt64 in *.
  rewrite ParseUint_loop_decimal; [|assumption|lia|unfold MaxUint64; lia].
  destruct (Z.leb_spec (2 ^ 63) (fold_left step (c :: r) 0)); [lia|].
  reflexivity.
Qed.

Lemma ParseInt_too_large ds :
  digits ds -> MaxInt64 < decimal ds ->
  exists v e, ParseInt ds = (v, Some e).
Proof.
  intros [Hne Hd] Hgt. destruct ds as [|c r]; [congruence|].
  unfold ParseInt.
  assert (Hc : is_digit c = true)
    by (simpl in Hd; now apply andb_true_iff in Hd).
  rewrite (digit_not_other "-" c Hc eq_refl), (digit_not_other "+" c Hc eq_refl).
  cbn [orb negb andb ParseUint]. unfold decimal, MaxInt64 in *.
  destruct (Z.le_gt_cases (fold_left step (c :: r) 0) MaxUint64) as [Hin | Hout].
  - rewrite ParseUint_loop_decimal by (assumption || lia).
    destruct (Z.leb_spec (2 ^ 63) (fold_left step (c :: r) 0)); [|lia].
    do 2 eexists. reflexivity.
  - rewrite ParseUint_loop_overflow by (assumption || unfold MaxUint64; lia).
    do 2 eexists. reflexivity.
Qed.

(** [ParseInt] succeeds only on an optional sign followed by one digit or
    more, and then returns the number written, which fits [int64]. *)
Lemma ParseInt_success s v :
  ParseInt s = (v, None) ->
  exists sign ds,
    s = sign ++ ds /\ digits ds
    /\ MinInt64 <= v <= MaxInt64
    /\ ((sign = [] \/ sign = ["+"%char]) /\ v = decimal ds
        \/ sign = ["-"%char] /\ v = - decimal ds).
Proof.
  destruct s as [|c r]; [discriminate|]. unfold ParseInt.
  set (neg := Ascii.eqb c "-"). set (plus := Ascii.eqb c "+").
  set (s1 := if plus || neg then r else c :: r).
  destruct (ParseUint s1) as [un [[]|]] eqn:Hu; [discriminate | | ].
  { (* a range error of ParseUint never becomes a success *)
    assert (un = MaxUint64).
    { destruct s1; [discriminate|]. now apply ParseUint_loop_range in Hu. }
    subst un. destruct neg; cbn; discriminate. }
  assert (Hs1 : digits s1 /\ un = decimal s1).
  { destruct s1 as [|x y]; [discriminate|].
    apply ParseUint_loop_success in Hu as [Hd ->].
    split; [split; [discriminate | exact Hd] | reflexivity]. }
  destruct Hs1 as [Hds ->].
  pose proof (decimal_nonneg s1) as H0.
  unfold MinInt64, MaxInt64.
  destruct neg eqn:Hneg; cbn [negb andb].
  - destruct (Z.ltb_spec (2 ^ 63) (decimal s1)); [discriminate|].
    intros [= <-]. exists ["-"%char], s1.
    subst neg. apply Ascii.eqb_eq in Hneg. subst c.
    subst s1. cbn [Ascii.eqb Bool.eqb andb orb] in *.
    replace (plus || true) with true in * by (now destruct plus).
    split; [reflexivity|]. split; [assumption|]. split; [lia|].
    right. split; reflexivity.
  - destruct (Z.leb_spec (2 ^ 63) (decimal s1)); [discriminate|].
    intros [= <-]. subst s1. rewrite orb_false_r in *.
    destruct plus eqn:Hplus.
    + subst plus. apply Ascii.eqb_eq in Hplus. subst c.
      exists ["+"%char], r. split; [reflexivity|]. split; [assumption|].
      split; [lia|]. left. split; [now right | reflexivity].
    + exists [], (c :: r). split; [reflexivity|]. split; [assumption|].
      split; [lia|]. left. split; [now left | reflexivity].
Qed.

(** *** parseSuffix after a digit *)

(** On any string that ends with a digit and then a unit of the table, or
    nothing, [parseSuffix] cuts right after the digit. *)
Lemma parseSuffix_after_digit p d u :
  is_digit d = true -> In u grammar ->
  parseSuffix ((p ++ [d]) ++ str (unit u)) = (p ++ [d], mul u, div u).
Proof.
  intros Hd Hin. unfold grammar, uomSuffixes in Hin. simpl in Hin.
  repeat (destruct Hin as [<- | Hin]); [..| destruct Hin];
    unfold parseSuffix, uomSuffixes, parseSuffix_range; cbn [unit mul div];
    repeat suffix_test Hd.
  unfold no_unit, str. simpl. now rewrite app_nil_r.
Qed.

Lemma digits_last ds :
  digits ds -> exists p d, ds = p ++ [d] /\ is_digit d = true.
Proof.
  intros [Hne Hd]. destruct (exists_last Hne) as [p [d ->]].
  exists p, d. split; [reflexivity|].
  rewrite forallb_app in Hd. apply andb_true_iff in Hd as [_ Hd].
  simpl in Hd. now rewrite andb_true_r in Hd.
Qed.

Lemma parseSuffix_signed sign ds u :
  digits ds -> In u grammar ->
  parseSuffix (sign ++ ds ++ str (unit u)) = (sign ++ ds, mul u, div u).
Proof.
  intros Hds Hin. destruct (digits_last ds Hds) as (p & d & -> & Hd).
  replace (sign ++ (p ++ [d]) ++ str (unit u))
    with (((sign ++ p) ++ [d]) ++ str (unit u))
    by (now rewrite <- !app_assoc).
  rewrite (parseSuffix_after_digit (sign ++ p) d u Hd Hin).
  now rewrite <- app_assoc.
Qed.

(** *** ParseLimit *)

Lemma wrap64_range z : MinInt64 <= wrap64 z <= MaxInt64.
Proof.
  unfold wrap64, MinInt64, MaxInt64.
  pose proof (Z.mod_pos_bound (z + 2 ^ 63) (2 ^ 64) ltac:(lia)). lia.
Qed.

(** X2. Whatever the input, [ParseLimit] returns either an error, of one of
    its two kinds and with the value 0, or a value between 0 and the largest
    [int64] with no error; and it succeeds only on an input made of an
    optional sign, one decimal digit or more, and then one of the eight
    units or nothing. *)
Theorem ParseLimit_result (s : gostring) :
  match ParseLimit s with
  | (v, None) =>
      0 <= v <= MaxInt64
      /\ exists sign ds u,
           s = sign ++ ds ++ str (unit u) /\ In u grammar /\ digits ds
           /\ (sign = [] \/ sign = ["+"%char] \/ sign = ["-"%char])
  | (v, Some e) =>
      v = 0 /\ (e = FailedToParse s \/ e = NegativeNotAccepted s)
  end.
Proof.
  destruct (parseSuffix_splits s) as (u & Hin & Hs & _ & _).
  unfold ParseLimit.
  destruct (parseSuffix s) as [[num m] d]. cbn [fst snd] in Hs.
  destruct (ParseInt num) as [z [e|]] eqn:Hp; [split; [reflexivity | now left]|].
  destruct (Z.ltb_spec (int64_div (int64_mul z m) d) 0);
    [split; [reflexivity | now right]|].
  split.
  { split; [assumption|]. unfold int64_div. apply wrap64_range. }
  destruct (ParseInt_success num z Hp) as (sign & ds & -> & Hds & _ & Hsign).
  exists sign, ds, u. split; [now rewrite Hs, <- app_assoc|].
  split; [assumption|]. split; [assumption|]. tauto.
Qed.

Lemma ParseLimit_on_number sign ds u z :
  digits ds -> In u grammar -> ParseInt (sign ++ ds) = (z, None) ->
  ParseLimit (sign ++ ds ++ str (unit u)) =
  if int64_div (int64_mul z (mul u)) (div u) <? 0
  then (0, Some (NegativeNotAccepted (sign ++ ds ++ str (unit u))))
  else (int64_div (int64_mul z (mul u)) (div u), None).
Proof.
  intros Hds Hin Hp. unfold ParseLimit.
  rewrite (parseSuffix_signed sign ds u Hds Hin), Hp. reflexivity.
Qed.

(** X3. On every input made of an optional plus sign, a decimal number that
    fits [int64] and one of the eight units or nothing, [ParseLimit] does
    not fail to parse: it multiplies the number by the unit's multiplier in
    [int64], wrapping around when the product does not fit, divides by the
    unit's divisor, and returns the quotient, or the negative-value error
    when the wrapped product made it negative. *)
Theorem ParseLimit_wellformed (plus : bool) (ds : gostring) (u : uom) :
  digits ds -> In u grammar -> decimal ds <= MaxInt64 ->
  let s := (if plus then ["+"%char] else []) ++ ds ++ str (unit u) in
  let v := int64_div (wrap64 (decimal ds * mul u)) (div u) in
  ParseLimit s = if v <? 0 then (0, Some (NegativeNotAccepted s)) else (v, None).
Proof.
  intros Hds Hin Hle. cbv zeta.
  apply (ParseLimit_on_number _ ds u (decimal ds) Hds Hin).
  destruct plus; [apply ParseInt_plus | apply ParseInt_digits]; assumption.
Qed.

(** X3 on "+10Mbps", and on a product that wraps around to 384 bits per
    second. *)
Lemma ParseLimit_wellformed_witness :
  let Mbps := {| unit := "Mbps"; mul := 1000 * 1000; div := 8 |} in
  let Kbps := {| unit := "Kbps"; mul := 1000; div := 8 |} in
  (digits (str "10") /\ In Mbps grammar /\ decimal (str "10") <= MaxInt64)
  /\ ParseLimit (str "+10Mbps") = (1250000, None)
  /\ ParseLimit (str "18446744073709552Kbps") = (48, None).
Proof.
  cbv zeta.
  assert (H1 : digits (str "10")) by (split; [discriminate | reflexivity]).
  assert (H2 : In {| unit := "Mbps"; mul := 1000 * 1000; div := 8 |} grammar)
    by (right; left; reflexivity).
  assert (H3 : decimal (str "10") <= MaxInt64) by (vm_compute; discriminate).
  assert (H4 : digits (str "18446744073709552"))
    by (split; [discriminate | reflexivity]).
  assert (H5 : In {| unit := "Kbps"; mul := 1000; div := 8 |} grammar)
    by (left; reflexivity).
  assert (H6 : decimal (str "18446744073709552") <= MaxInt64)
    by (vm_compute; discriminate).
  split; [split; [exact H1 | split; [exact H2 | exact H3]] |].
  split.
  - exact (ParseLimit_wellformed true (str "10") _ H1 H2 H3).
  - exact (ParseLimit_wellformed false (str "18446744073709552") _ H4 H5 H6).
Defined.

(** X4. On a minus sign, a decimal number and one of the eight units or
    nothing, the product of the number and the multiplier being at most
    2^63, [ParseLimit] refuses the input as negative exactly when that
    product reaches the unit's divisor; below it (-1 to -7 with a
    divide-by-8 unit, and -0) it returns 0 with no error. *)
Theorem ParseLimit_negative_number (ds : gostring) (u : uom) :
  digits ds -> In u grammar -> decimal ds * mul u <= 2 ^ 63 ->
  let s := "-"%char :: ds ++ str (unit u) in
  ParseLimit s =
  if decimal ds * mul u <? div u then (0, None)
  else (0, Some (NegativeNotAccepted s)).
Proof.
  intros Hds Hin Hle. cbv zeta.
  pose proof (decimal_nonneg ds) as H0.
  assert (Hmd : 1 <= mul u /\ (div u = 1 \/ div u = 8)).
  { unfold grammar, uomSuffixes in Hin. simpl in Hin.
    repeat (destruct Hin as [<- | Hin]); [..| destruct Hin]; simpl; lia. }
  destruct Hmd as [Hm Hdv].
  change ("-"%char :: ds ++ str (unit u)) with (["-"%char] ++ ds ++ str (unit u)).
  rewrite (ParseLimit_on_number ["-"%char] ds u (- decimal ds) Hds Hin)
    by (apply ParseInt_minus; [assumption | nia]).
  unfold int64_mul, int64_div.
  rewrite Z.mul_opp_l.
  rewrite (wrap64_small (- (decimal ds * mul u))) by (unfold MinInt64, MaxInt64; nia).
  rewrite Z.quot_opp_l by lia.
  assert (Hq : 0 <= Z.quot (decimal ds * mul u) (div u) <= decimal ds * mul u).
  { split; [apply Z.quot_pos; nia|].
    destruct Hdv as [-> | ->]; [rewrite Z.quot_1_r; lia|].
    apply Z.quot_le_upper_bound; nia. }
  rewrite wrap64_small by (unfold MinInt64, MaxInt64; lia).
  destruct (Z.ltb_spec (decimal ds * mul u) (div u)) as [Hlt | Hge].
  - rewrite Z.quot_small by nia. reflexivity.
  - assert (1 <= Z.quot (decimal ds * mul u) (div u)).
    { rewrite Z.quot_div_nonneg by nia.
      apply Z.div_le_lower_bound; lia. }
    destruct (Z.ltb_spec (- Z.quot (decimal ds * mul u) (div u)) 0); [reflexivity | lia].
Qed.

(** X4 on "-7bps", accepted, and "-1Bps", refused. *)
Lemma ParseLimit_negative_number_witness :
  let bps := {| unit := "bps"; mul := 1; div := 8 |} in
  let Bps := {| unit := "Bps"; mul := 1; div := 1 |} in
  (digits (str "7") /\ In bps grammar /\ decimal (str "7") * mul bps <= 2 ^ 63)
  /\ ParseLimit (str "-7bps") = (0, None)
  /\ ParseLimit (str "-1Bps") = (0, Some (NegativeNotAccepted (str "-1Bps"))).
Proof.
  cbv zeta.
  assert (H1 : digits (str "7")) by (split; [discriminate | reflexivity]).
  assert (H2 : In {| unit := "bps"; mul := 1; div := 8 |} grammar)
    by (do 6 right; left; reflexivity).
  assert (H3 : decimal (str "7") * 1 <= 2 ^ 63) by (vm_compute; discriminate).
  assert (H4 : digits (str "1")) by (split; [discriminate | reflexivity]).
  assert (H5 : In {| unit := "Bps"; mul := 1; div := 1 |} grammar)
    by (do 7 right; left; reflexivity).
  assert (H6 : decimal (str "1") * 1 <= 2 ^ 63) by (vm_compute; discriminate).
  split; [split; [exact H1 | split; [exact H2 | exact H3]] |].
  split.
  - exact (ParseLimit_negative_number (str "7") _ H1 H2 H3).
  - exact (ParseLimit_negative_number (str "1") _ H4 H5 H6).
Defined.

(** X5. A decimal number above the largest [int64], 9223372036854775807,
    followed by one of the eight units or nothing, is refused with the
    failed-to-parse error, however small the rate it would denote. *)
Theorem ParseLimit_number_too_large (ds : gostring) (u : uom) :
  digits ds -> In u grammar -> MaxInt64 < decimal ds ->
  ParseLimit (ds ++ str (unit u))
  = (0, Some (FailedToParse (ds ++ str (unit u)))).
Proof.
  intros Hds Hin Hgt.
  destruct (ParseInt_too_large ds Hds Hgt) as (v & e & Hp).
  pose proof (parseSuffix_signed [] ds u Hds Hin) as Hps.
  change ([] ++ ds ++ str (unit u)) with (ds ++ str (unit u)) in Hps.
  change ([] ++ ds) with ds in Hps.
  unfold ParseLimit. rewrite Hps, Hp. reflexivity.
Qed.

(** X5 on 2^63 bits per second. *)
Lemma ParseLimit_number_too_large_witness :
  let bps := {| unit := "bps"; mul := 1; div := 8 |} in
  (digits (str "9223372036854775808") /\ In bps grammar
   /\ MaxInt64 < decimal (str "9223372036854775808"))
  /\ ParseLimit (str "9223372036854775808bps")
     = (0, Some (FailedToParse (str "9223372036854775808bps"))).
Proof.
  cbv zeta.
  assert (H1 : digits (str "9223372036854775808"))
    by (split; [discriminate | reflexivity]).
  assert (H2 : In {| unit := "bps"; mul := 1; div := 8 |} grammar)
    by (do 6 right; left; reflexivity).
  assert (H3 : MaxInt64 < decimal (str "9223372036854775808")) by reflexivity.
  split; [split; [exact H1 | split; [exact H2 | exact H3]] |].
  exact (ParseLimit_number_too_large (str "9223372036854775808") _ H1 H2 H3).
Defined.

End ParseCoverage.

(** ** Burst sizing and the limiter main builds *)

Module BurstCoverage.

Import Limit BurstFacts.

(** [rate.Limit(bps)] in main: an [int64] converted to [float64]. The
    conversion is exact up to 2^53; beyond, the number is rounded to 53
    significant bits, to the nearest, a tie going to the even one. *)
Definition round_to_53_bits (a : Z) : Z :=
  let e := Z.log2 a - 52 in
  if e <=? 0 then a
  else
    let q := a / 2 ^ e in
    let r := a mod 2 ^ e in
    let half := 2 ^ (e - 1) in
    let q := if r <? half then q
             else if half <? r then q + 1
             else if Z.even q then q else q + 1 in
    q * 2 ^ e.

Definition Limit_of_int64 (z : Z) : rate_Limit :=
  inject_Z (Z.sgn z * round_to_53_bits (Z.abs z)).

Lemma truncate_inject_Z z : truncate (inject_Z z) = z.
Proof. unfold truncate, inject_Z. simpl. apply Z.quot_1_r. Qed.

Lemma round_to_53_bits_exact a : 0 <= a < 2 ^ 53 -> round_to_53_bits a = a.
Proof.
  intros [H0 H]. unfold round_to_53_bits.
  destruct (Z.eq_dec a 0) as [-> | Hne]; [reflexivity|].
  assert (Z.log2 a < 53) by (apply Z.log2_lt_pow2; lia).
  destruct (Z.leb_spec (Z.log2 a - 52) 0); [reflexivity | lia].
Qed.

(** Rounding a number from 2^53 up, short of the last 512 before 2^63, stays
    between 2^53 and the largest [float64] below 2^63. *)
Lemma round_to_53_bits_large a :
  2 ^ 53 <= a <= 2 ^ 63 - 513 ->
  2 ^ 53 <= round_to_53_bits a <= 2 ^ 63 - 1024.
Proof.
  intros [Hlo Hhi]. unfold round_to_53_bits.
  assert (H1 : 53 <= Z.log2 a) by (apply Z.log2_le_pow2; lia).
  assert (H2 : Z.log2 a < 63) by (apply Z.log2_lt_pow2; lia).
  pose proof (Z.log2_spec a ltac:(lia)) as [Hs1 Hs2].
  assert (He : exists e, Z.log2 a = 52 + e /\ 1 <= e <= 10)
    by (exists (Z.log2 a - 52); lia).
  destruct He as (e & Hlog & He). rewrite Hlog in *.
  replace (52 + e - 52) with e by lia.
  destruct (Z.leb_spec e 0); [lia|].
  assert (Hcases : e = 1 \/ e = 2 \/ e = 3 \/ e = 4 \/ e = 5 \/ e = 6 \/ e = 7
                   \/ e = 8 \/ e = 9 \/ e = 10) by lia.
  repeat (destruct Hcases as [-> | Hcases]); [..| subst e];
    cbn [Z.sub Z.add Z.succ Z.pos_sub Z.opp Pos.add Pos.succ Z.double
         Z.succ_double Z.pred_double Pos.pred_double] in *;
    match goal with
    | |- context [a / ?p] =>
        pose proof (Z.div_mod a p ltac:(discriminate));
        pose proof (Z.mod_pos_bound a p ltac:(reflexivity));
        change (Z.succ 52 + _) with 63 in *
    end;
    set (q := a / _) in *; set (r := a mod _) in *;
    repeat match goal with
      | |- context [if ?b then _ else _] => destruct b eqn:?
      end;
    repeat match goal with
      | H : (_ <? _) = true |- _ => apply Z.ltb_lt in H
      | H : (_ <? _) = false |- _ => apply Z.ltb_ge in H
      end;
    lia.
Qed.

Lemma truncate_monotone (l1 l2 : Q) :
  (0 <= l1)%Q -> (l1 <= l2)%Q -> truncate l1 <= truncate l2.
Proof.
  destruct l1 as [n1 d1], l2 as [n2 d2]. unfold Qle, truncate. simpl.
  intros H0 H. rewrite !Z.quot_div_nonneg by lia.
  apply Z.div_le_lower_bound; [lia|].
  pose proof (Z.mul_div_le n1 (Z.pos d1) ltac:(lia)). nia.
Qed.

Section Facts.

Context {O : Outside}.

Lemma GetGoodBurst_clamp (l : rate_Limit) :
  (0 < l)%Q -> truncate l <= MaxInt64 ->
  GetGoodBurst l = clamp (Z.quot (truncate l) 20) 1 65536.
Proof.
  intros Hpos Hfit. rewrite (GetGoodBurst_rule l Hpos Hfit).
  unfold goodBurst_rule. now rewrite truncate_div_20.
Qed.

(** X6. Among the rates above 0 whose integer part fits [int64], a larger
    rate never gets a smaller burst. *)
Theorem GetGoodBurst_monotone (l1 l2 : rate_Limit) :
  (0 < l1)%Q -> (l1 <= l2)%Q -> truncate l2 <= MaxInt64 ->
  GetGoodBurst l1 <= GetGoodBurst l2.
Proof.
  intros Hpos Hle Hfit.
  pose proof (truncate_monotone l1 l2 (Qlt_le_weak _ _ Hpos) Hle) as Hm.
  pose proof (truncate_nonneg l1 (Qlt_le_weak _ _ Hpos)) as H0.
  rewrite (GetGoodBurst_clamp l1 Hpos) by lia.
  rewrite (GetGoodBurst_clamp l2 (Qlt_le_trans _ _ _ Hpos Hle) Hfit).
  assert (Z.quot (truncate l1) 20 <= Z.quot (truncate l2) 20)
    by (apply Z.quot_le_mono; lia).
  unfold clamp. lia.
Qed.

(** X7. For a rate above 0 whose integer part fits [int64]: the burst is the
    smallest one, 1, exactly when the rate is below 40 bytes per second, and
    the largest one, 65536, exactly when the rate is 1310720 bytes per
    second or more. *)
Theorem GetGoodBurst_extremes (l : rate_Limit) :
  (0 < l)%Q -> truncate l <= MaxInt64 ->
  (GetGoodBurst l = 1 <-> truncate l < 40)
  /\ (GetGoodBurst l = 65536 <-> 1310720 <= truncate l).
Proof.
  intros Hpos Hfit.
  pose proof (truncate_nonneg l (Qlt_le_weak _ _ Hpos)) as H0.
  rewrite (GetGoodBurst_clamp l Hpos Hfit). unfold clamp.
  rewrite Z.quot_div_nonneg by lia.
  pose proof (Z.div_mod (truncate l) 20 ltac:(lia)).
  pose proof (Z.mod_pos_bound (truncate l) 20 ltac:(lia)).
  split; split; lia.
Qed.

Lemma GetGoodBurst_of_int64 (bps : Z) :
  0 <= bps <= 2 ^ 63 - 513 ->
  GetGoodBurst (Limit_of_int64 bps)
  = if bps =? 0 then 65536 else clamp (bps / 20) 1 65536.
Proof.
  intros [H0 Hhi]. destruct (Z.eqb_spec bps 0) as [-> | Hne].
  { apply GetGoodBurst_zero. reflexivity. }
  unfold Limit_of_int64.
  rewrite Z.abs_eq, Z.sgn_pos, Z.mul_1_l by lia.
  set (R := round_to_53_bits bps).
  assert (HR : 0 < R <= MaxInt64
               /\ clamp (Z.quot R 20) 1 65536 = clamp (bps / 20) 1 65536).
  { destruct (Z.lt_ge_cases bps (2 ^ 53)) as [Hs | Hl].
    - unfold R. rewrite round_to_53_bits_exact by lia.
      unfold MaxInt64. split; [lia|].
      now rewrite Z.quot_div_nonneg by lia.
    - pose proof (round_to_53_bits_large bps ltac:(lia)) as [Hr1 Hr2].
      fold R in Hr1, Hr2. unfold MaxInt64. split; [lia|].
      rewrite Z.quot_div_nonneg by lia.
      assert (65536 <= R / 20) by (apply Z.div_le_lower_bound; lia).
      assert (65536 <= bps / 20) by (apply Z.div_le_lower_bound; lia).
      unfold clamp. lia. }
  destruct HR as [[HR0 HR1] Hc].
  rewrite GetGoodBurst_clamp;
    [ now rewrite truncate_inject_Z
    | unfold Qlt, inject_Z; simpl; lia
    | now rewrite truncate_inject_Z ].
Qed.

(** X8. [NewLimiter(rate.Limit(bps))], as main calls it, for a rate that
    [ParseLimit] can return short of the 512 largest: it makes a new limiter
    at a pointer that was not in use, built by [rate.NewLimiter] from the
    rate and the burst 65536 when the rate is 0, bps/20 clamped to
    [1, 65536] otherwise, and leaves every other limiter as it was. *)
Theorem NewLimiter_of_int64 (bps : Z) (w : World) :
  0 <= bps <= 2 ^ 63 - 513 ->
  exists l w',
    NewLimiter (Limit_of_int64 bps) w = Done l w'
    /\ limiters w !! l = None
    /\ limiters w' !! l
       = Some (rate_NewLimiter (Limit_of_int64 bps)
                 (if bps =? 0 then 65536 else clamp (bps / 20) 1 65536))
    /\ (forall l', l' <> l -> limiters w' !! l' = limiters w !! l')
    /\ ticks w' = ticks w /\ selects w' = selects w /\ trace w' = trace w.
Proof.
  intros Hb. unfold NewLimiter. do 2 eexists. split; [reflexivity|].
  split; [apply not_elem_of_dom, is_fresh|].
  split.
  { cbn [limiters set_limiters]. rewrite lookup_insert_eq.
    now rewrite GetGoodBurst_of_int64. }
  split; [| repeat split].
  intros l' Hne. cbn [limiters set_limiters]. now rewrite lookup_insert_ne.
Qed.

End Facts.

#[local] Existing Instance Double.outside.

(** X6 at 100 and 1000 bytes per second. *)
Lemma GetGoodBurst_monotone_witness :
  ((0 < inject_Z 100)%Q /\ (inject_Z 100 <= inject_Z 1000)%Q
   /\ truncate (inject_Z 1000) <= MaxInt64)
  /\ GetGoodBurst (inject_Z 100) <= GetGoodBurst (inject_Z 1000).
Proof.
  assert (H1 : (0 < inject_Z 100)%Q) by reflexivity.
  assert (H2 : (inject_Z 100 <= inject_Z 1000)%Q) by (vm_compute; discriminate).
  assert (H3 : truncate (inject_Z 1000) <= MaxInt64) by (vm_compute; discriminate).
  split; [split; [exact H1 | split; [exact H2 | exact H3]] |].
  exact (GetGoodBurst_monotone (inject_Z 100) (inject_Z 1000) H1 H2 H3).
Defined.

(** X7 at 39.5 bytes per second. *)
Lemma GetGoodBurst_extremes_witness :
  ((0 < 79 # 2)%Q /\ truncate (79 # 2) <= MaxInt64)
  /\ (GetGoodBurst (79 # 2) = 1 <-> truncate (79 # 2) < 40)
  /\ (GetGoodBurst (79 # 2) = 65536 <-> 1310720 <= truncate (79 # 2)).
Proof.
  assert (H1 : (0 < 79 # 2)%Q) by reflexivity.
  assert (H2 : truncate (79 # 2) <= MaxInt64) by (vm_compute; discriminate).
  split; [split; [exact H1 | exact H2] |].
  exact (GetGoodBurst_extremes (79 # 2) H1 H2).
Defined.

(** X8 at 10 Mbps, 1250000 bytes per second, in a world with one limiter. *)
Lemma NewLimiter_of_int64_witness :
  0 <= 1250000 <= 2 ^ 63 - 513
  /\ exists l w',
       NewLimiter (Limit_of_int64 1250000) Double.world0 = Done l w'
       /\ limiters Double.world0 !! l = None
       /\ limiters w' !! l
          = Some (rate_NewLimiter (Limit_of_int64 1250000) 62500)
       /\ (forall l', l' <> l ->
           limiters w' !! l' = limiters Double.world0 !! l')
       /\ ticks w' = ticks Double.world0
       /\ selects w' = selects Double.world0
       /\ trace w' = trace Double.world0.
Proof.
  assert (H : 0 <= 1250000 <= 2 ^ 63 - 513) by (split; vm_compute; discriminate).
  split; [exact H|].
  exact (NewLimiter_of_int64 1250000 Double.world0 H).
Defined.

End BurstCoverage.

(** ** The rate-limited connection: every path of a call *)

Module ConnCoverage.

Import Limit ConnFacts.

Section Facts.

Context {O : Outside}.

(** What the reservation and what follows it come to, path by path: the
    tokens are at hand; the deadline falls before the instant they will be;
    the call waits for that instant and the timer or the close signal ends
    the wait. *)
Lemma settle_run nb dl l lim n err b c w r lim' :
  limiters w !! l = Some lim ->
  ReserveN lim (clock (ticks w)) n = (r, lim') ->
  let now := clock (ticks w) in
  let act := Add now (DelayFrom r now) in
  let w1 := reserved l now n r lim' (tick w) in
  settle nb dl l n err b (c, w) =
  if Before now act then
    if negb (IsZero (deref dl c)) && Before (deref dl c) act then
      Done (n, Some (err_timeoutError timeoutError_lit), b) (assign nb act c, w1)
    else if IsZero act then Done (n, err, b) (c, w1)
    else match wait_outcome c w1 act with
         | TimerFired => Done (n, err, b) (c, waited act TimerFired w1)
         | CloseFired =>
             Done (n, Some io_ErrClosedPipe, b)
                  (set_close ChanClosed c, waited act CloseFired w1)
         end
  else Done (n, err, b) (c, w1).
Proof.
  intros Hl Hr now act w1. unfold settle. cbv zeta.
  rewrite run_Now, (run_ReserveN l lim _ n r lim') by assumption.
  rewrite run_load. fold now. fold act. fold w1.
  assert (Hn : 0 + n = n) by lia. rewrite Hn.
  destruct (Before now act).
  - destruct (negb (IsZero (deref dl c)) && Before (deref dl c) act).
    + rewrite run_store. reflexivity.
    + destruct (IsZero act); cbn [negb].
      * rewrite run_ret. reflexivity.
      * unfold bind. rewrite waitUntil_run.
        destruct (wait_outcome c w1 act); reflexivity.
  - cbn [IsZero zeroTime Z.eqb negb]. rewrite run_ret. reflexivity.
Qed.

(** X9. A zero-length Read or Write is handed to the wrapped connection as
    it is and its result returned, on any connection and in any world: with
    the channel closed, a delay owed, a deadline passed or no limiter at
    all, the call reads no clock, runs no select, reserves nothing and does
    not panic. *)
Theorem zero_length_bypasses_throttle d (c : LimitedConnection) (w : World) :
  exists n err data i w',
    primitive d (inner c) [] = (n, err, data, i)
    /\ transfer d [] (c, w) = Done (n, err, data) (set_inner i c, w')
    /\ limiters w' = limiters w
    /\ ticks w' = ticks w
    /\ selects w' = selects w
    /\ trace w' = trace w ++ [EvIO [] n err].
Proof.
  rewrite transfer_zero_length.
  destruct (primitive d (inner c) []) as [[[n err] data] i].
  exists n, err, data, i. eexists. repeat split.
Qed.

(** The limiter store after a call that reaches its I/O. *)
Lemma transfer_limiters d b c w lim n err data i :
  b <> [] -> passes_prewait d c w ->
  limiters w !! limiter c = Some lim -> 0 <= Burst lim ->
  primitive d (inner c) (chunk_of lim b) = (n, err, data, i) ->
  exists res c' w',
    transfer d b (c, w) = Done res (c', w')
    /\ fst (fst res) = n
    /\ limiter c' = limiter c
    /\ (forall l', l' <> limiter c -> limiters w' !! l' = limiters w !! l')
    /\ limiters w' !! limiter c
       = Some (if n =? 0 then lim
               else snd (ReserveN lim (clock (ticks (before_io d c w))) n)).
Proof.
  intros Hb Hp Hl Hburst Hio.
  rewrite (transfer_to_io d b c w lim n err data i Hb Hp Hl Hburst Hio).
  destruct (Z.eqb_spec n 0) as [-> | Hn].
  { do 3 eexists. split; [reflexivity|]. split; [reflexivity|].
    split; [reflexivity|]. cbn [limiters log].
    rewrite limiters_before_io. split; [reflexivity | exact Hl]. }
  destruct (ReserveN lim (clock (ticks (before_io d c w))) n) as [r lim'] eqn:Hr.
  rewrite (settle_run _ _ _ lim n err _ _ _ r lim');
    [| cbn; now rewrite limiters_before_io | exact Hr].
  cbv zeta. cbn [ticks log set_inner inner snd].
  repeat match goal with
         | |- context [if ?x then _ else _] => destruct x
         | |- context [match wait_outcome ?a ?b ?t with _ => _ end] =>
             destruct (wait_outcome a b t)
         end;
    do 3 eexists;
    (split; [reflexivity|]); (split; [reflexivity|]);
    (split; [destruct d; reflexivity|]);
    cbn; rewrite limiters_before_io;
    (split; [intros l' Hne; now rewrite lookup_insert_ne
            | apply lookup_insert_eq]).
Qed.

(** X10. A Read or Write with a non-empty buffer that reaches its I/O
    returns the count the wrapped connection's primitive returned and has
    reserved exactly that many tokens, once, at the clock reading taken
    after the I/O, from the limiter the connection points to (nothing when
    the count is zero); this whether the call then returns at once, times
    out, or waits and is ended by the timer or the close signal. No other
    limiter is touched. *)
Theorem reserves_what_it_transfers d b c w lim n err data i :
  b <> [] -> passes_prewait d c w ->
  limiters w !! limiter c = Some lim -> 0 <= Burst lim ->
  primitive d (inner c) (chunk_of lim b) = (n, err, data, i) ->
  exists res c' w',
    transfer d b (c, w) = Done res (c', w')
    /\ fst (fst res) = n
    /\ (forall l', l' <> limiter c -> limiters w' !! l' = limiters w !! l')
    /\ limiters w' !! limiter c
       = Some (if n =? 0 then lim
               else snd (ReserveN lim (clock (ticks (before_io d c w))) n)).
Proof.
  intros Hb Hp Hl Hburst Hio.
  destruct (transfer_limiters d b c w lim n err data i Hb Hp Hl Hburst Hio)
    as (res & c' & w' & Hrun & Hn & _ & Hfr & Hlim).
  exists res, c', w'. repeat (split; [assumption|]). assumption.
Qed.

(** X11. Two connections that hold the same limiter pointer draw on one
    bucket: when a call on the first has transferred [n1] bytes, not zero,
    a call on the second that transfers [n2] bytes, not zero, makes its
    reservation on the limiter as the first call's reservation left it. *)
Theorem connections_share_the_bucket
    d1 b1 c1 w lim n1 err1 data1 i1 res1 c1' w1
    d2 b2 c2 n2 err2 data2 i2 :
  b1 <> [] -> passes_prewait d1 c1 w ->
  limiters w !! limiter c1 = Some lim -> 0 <= Burst lim ->
  primitive d1 (inner c1) (chunk_of lim b1) = (n1, err1, data1, i1) ->
  n1 <> 0 ->
  transfer d1 b1 (c1, w) = Done res1 (c1', w1) ->
  let lim1 := snd (ReserveN lim (clock (ticks (before_io d1 c1 w))) n1) in
  limiter c2 = limiter c1 ->
  b2 <> [] -> passes_prewait d2 c2 w1 -> 0 <= Burst lim1 ->
  primitive d2 (inner c2) (chunk_of lim1 b2) = (n2, err2, data2, i2) ->
  n2 <> 0 ->
  exists res2 c2' w2,
    transfer d2 b2 (c2, w1) = Done res2 (c2', w2)
    /\ limiters w1 !! limiter c2 = Some lim1
    /\ limiters w2 !! limiter c1
       = Some (snd (ReserveN lim1 (clock (ticks (before_io d2 c2 w1))) n2)).
Proof.
  intros Hb1 Hp1 Hl Hburst Hio1 Hn1 Hrun1 lim1 Hsame Hb2 Hp2 Hburst1 Hio2 Hn2.
  destruct (transfer_limiters d1 b1 c1 w lim n1 err1 data1 i1
              Hb1 Hp1 Hl Hburst Hio1)
    as (res & c' & w' & Hrun & _ & _ & _ & Hlim).
  rewrite Hrun1 in Hrun. inversion Hrun; subst res c' w'. clear Hrun.
  apply Z.eqb_neq in Hn1. rewrite Hn1 in Hlim. fold lim1 in Hlim.
  rewrite <- Hsame in Hlim.
  destruct (transfer_limiters d2 b2 c2 w1 lim1 n2 err2 data2 i2
              Hb2 Hp2 Hlim Hburst1 Hio2)
    as (res2 & c2' & w2 & Hrun2 & _ & _ & _ & Hlim2).
  apply Z.eqb_neq in Hn2. rewrite Hn2 in Hlim2.
  exists res2, c2', w2. split; [exact Hrun2|]. split; [exact Hlim|].
  now rewrite <- Hsame.
Qed.

(** X12. When the tokens reserved for the bytes transferred are at hand
    (the instant the reservation gives is not after the clock reading), the
    call returns the count and the error of the wrapped connection's
    primitive at once: no select runs, and the connection keeps its
    timestamps and its close signal. *)
Theorem tokens_at_hand_returns_at_once d b c w lim n err data i r lim' :
  b <> [] -> passes_prewait d c w ->
  limiters w !! limiter c = Some lim -> 0 <= Burst lim ->
  primitive d (inner c) (chunk_of lim b) = (n, err, data, i) -> n <> 0 ->
  let now := clock (ticks (before_io d c w)) in
  ReserveN lim now n = (r, lim') ->
  Before now (Add now (DelayFrom r now)) = false ->
  exists w',
    transfer d b (c, w)
    = Done (n, err, write_back b 0 data) (set_inner i c, w')
    /\ trace w' = trace (before_io d c w)
                    ++ [EvIO (chunk_of lim b) n err; EvReserve now n r]
    /\ selects w' = selects (before_io d c w)
    /\ limiters w' !! limiter c = Some lim'.
Proof.
  intros Hb Hp Hl Hburst Hio Hn now Hr Hnow.
  rewrite (transfer_to_io d b c w lim n err data i Hb Hp Hl Hburst Hio).
  apply Z.eqb_neq in Hn. rewrite Hn.
  rewrite (settle_run _ _ _ lim n err _ _ _ r lim');
    [| cbn; now rewrite limiters_before_io | exact Hr].
  cbv zeta. cbn [ticks log]. fold now. rewrite Hnow.
  eexists. split; [reflexivity|].
  split; [cbn; now rewrite <- app_assoc|].
  split; [reflexivity|]. cbn. apply lookup_insert_eq.
Qed.

(** X13. When the tokens will only be there at an instant [act] after the
    clock reading, and the direction has no deadline or one that is not
    before [act], the call waits for [act] after the I/O and the
    reservation. If the timer ends the wait it returns the count and the
    error of the primitive; if the close signal ends it, it returns the
    count, still the bytes transferred, with [io.ErrClosedPipe] in place of
    the primitive's error. Its timestamps are untouched either way. *)
Theorem waits_for_the_tokens d b c w lim n err data i r lim' :
  b <> [] -> passes_prewait d c w ->
  limiters w !! limiter c = Some lim -> 0 <= Burst lim ->
  primitive d (inner c) (chunk_of lim b) = (n, err, data, i) -> n <> 0 ->
  let now := clock (ticks (before_io d c w)) in
  0 <= now ->
  ReserveN lim now n = (r, lim') ->
  let act := Add now (DelayFrom r now) in
  Before now act = true ->
  IsZero (deref (deadline_of d) c) = true
  \/ Before (deref (deadline_of d) c) act = false ->
  let f := select_case (close c)
             (Sub act (clock (S (ticks (before_io d c w)))))
             (chosen (selects (before_io d c w))) in
  exists c' w',
    transfer d b (c, w)
    = Done (n, if f is CloseFired then Some io_ErrClosedPipe else err,
            write_back b 0 data) (c', w')
    /\ trace w' = trace (before_io d c w)
                    ++ [EvIO (chunk_of lim b) n err; EvReserve now n r;
                        EvWait act f]
    /\ (forall p, deref p c' = deref p c)
    /\ inner c' = i
    /\ limiters w' !! limiter c = Some lim'.
Proof.
  intros Hb Hp Hl Hburst Hio Hn now H0 Hr act Hnow Hdl f.
  rewrite (transfer_to_io d b c w lim n err data i Hb Hp Hl Hburst Hio).
  apply Z.eqb_neq in Hn. rewrite Hn.
  rewrite (settle_run _ _ _ lim n err _ _ _ r lim');
    [| cbn; now rewrite limiters_before_io | exact Hr].
  cbv zeta. cbn [ticks log]. fold now. fold act. rewrite Hnow.
  replace (negb (IsZero (deref (deadline_of d) (set_inner i c)))
           && Before (deref (deadline_of d) (set_inner i c)) act) with false.
  2: { replace (deref (deadline_of d) (set_inner i c))
         with (deref (deadline_of d) c) by (destruct d; reflexivity).
       destruct Hdl as [-> | ->]; [reflexivity | symmetry; apply andb_false_r]. }
  replace (IsZero act) with false.
  2: { symmetry. unfold IsZero. apply Z.eqb_neq.
       unfold Before in Hnow. apply Z.ltb_lt in Hnow. lia. }
  unfold wait_outcome. cbn [close set_inner ticks selects reserved tick log
                            set_limiters].
  fold f.
  destruct f; do 2 eexists;
    (split; [reflexivity|]);
    (split; [cbn; rewrite <- !app_assoc; reflexivity|]);
    (split; [intros []; reflexivity|]);
    (split; [reflexivity|]); cbn; apply lookup_insert_eq.
Qed.

(** X14. Whatever path a Read or Write takes, when it returns it has kept
    the connection's limiter pointer, both deadlines and the other
    direction's not-before timestamp; and it has written its own
    direction's not-before timestamp only if it returns the timeout error:
    a timestamp once set stays until a later call times out. *)
Theorem a_call_writes_not_before_only_on_timeout d b c w res c' w' :
  transfer d b (c, w) = Done res (c', w') ->
  limiter c' = limiter c
  /\ (forall p, p <> notBefore_of d -> deref p c' = deref p c)
  /\ (deref (notBefore_of d) c' = deref (notBefore_of d) c
      \/ snd (fst res) = Some (err_timeoutError timeoutError_lit)).
Proof.
  intros Hrun.
  destruct (transfer_frame d b c w res c' w' Hrun) as [Hlim Hfr].
  split; [exact Hlim|]. split; [exact Hfr|]. revert Hrun.
  destruct b as [|x b'].
  { rewrite transfer_zero_length.
    destruct (primitive d (inner c) []) as [[[n err] data] i].
    intros H. inversion H; subst. left. destruct d; reflexivity. }
  set (b := x :: b'). assert (Hb : b <> []) by discriminate.
  destruct (IsZero (pre_target d c w)) eqn:Hz;
    [| destruct (wait_outcome c (tick w) (pre_target d c w)) eqn:Ho].
  3: { rewrite (transfer_closed_in_prewait d b c w Hb Hz Ho).
       intros H. inversion H; subst. left. destruct d; reflexivity. }
  all: assert (Hp : passes_prewait d c w)
         by (unfold passes_prewait; auto).
  all: destruct (limiters w !! limiter c) as [lim|] eqn:Hl;
         [| rewrite (transfer_nil_limiter d b c w Hb Hp Hl); discriminate].
  all: destruct (Z.lt_ge_cases (Burst lim) 0) as [Hneg | Hpos];
         [rewrite (transfer_negative_burst d b c w lim Hb Hp Hl Hneg);
          discriminate|].
  all: destruct (primitive d (inner c) (chunk_of lim b))
         as [[[n err] data] i] eqn:Hio.
  all: rewrite (transfer_to_io d b c w lim n err data i Hb Hp Hl Hpos Hio).
  all: destruct (n =? 0);
         [ intros H; inversion H; subst; left; destruct d; reflexivity |].
  all: destruct (ReserveN lim (clock (ticks (before_io d c w))) n)
         as [r lim'] eqn:Hr.
  all: rewrite (settle_run _ _ _ lim n err _ _ _ r lim');
         [| cbn; now rewrite limiters_before_io | exact Hr].
  all: cbv zeta.
  all: repeat match goal with
         | |- context [if ?x then _ else _] => destruct x
         | |- context [match wait_outcome ?a ?b ?t with _ => _ end] =>
             destruct (wait_outcome a b t)
         end.
  all: intros H; inversion H; subst;
         first [ right; reflexivity | left; destruct d; reflexivity ].
Qed.

(** X15. A call that owes a delay (the clock is before the direction's
    not-before timestamp) under a deadline that is set and comes before the
    end of that delay waits for the deadline, not for the end of the delay;
    when the timer ends that wait the call goes on to its I/O on the chunk:
    the wait before the I/O never makes the call return the timeout error. *)
Theorem deadline_cuts_the_owed_wait d b c w lim :
  b <> [] ->
  Before (clock (ticks w)) (deref (notBefore_of d) c) = true ->
  IsZero (deref (deadline_of d) c) = false ->
  Before (deref (deadline_of d) c) (deref (notBefore_of d) c) = true ->
  wait_outcome c (tick w) (deref (deadline_of d) c) = TimerFired ->
  limiters w !! limiter c = Some lim -> 0 <= Burst lim ->
  exists res c' w' n err evs,
    transfer d b (c, w) = Done res (c', w')
    /\ trace w' = trace w
                    ++ EvWait (deref (deadline_of d) c) TimerFired
                    :: EvIO (chunk_of lim b) n err :: evs.
Proof.
  intros Hb Hnb Hz Hdl Ho Hl Hburst.
  assert (Ht : pre_target d c w = deref (deadline_of d) c).
  { unfold pre_target, wait_target. now rewrite Hnb, Hz, Hdl. }
  assert (Hp : passes_prewait d c w) by (right; now rewrite Ht).
  destruct (transfer_log d b c w lim Hb Hp Hl Hburst)
    as (res & c' & w' & evs & Hrun & Htr & Hshape & _).
  rewrite trace_before_io in Htr. unfold prewait_events in Htr.
  rewrite Ht, Hz in Htr.
  exists res, c', w'.
  inversion Hshape; subst evs; do 2 eexists; eexists;
    (split; [exact Hrun|]); rewrite Htr, <- app_assoc; reflexivity.
Qed.

(** X16. [SetDeadline] never fails to store the read deadline. If the
    wrapped connection refuses the read deadline, [SetDeadline] returns that
    error and stops: the write deadline is left as it was and the wrapped
    connection is not asked to set it. Otherwise it stores the write
    deadline too and returns what the wrapped connection answers for it. In
    both cases the not-before timestamps, the limiter pointer and the close
    signal are untouched and the world is unchanged. *)
Theorem SetDeadline_stops_at_the_first_error
    (t : Time) (c : LimitedConnection) (w : World) :
  exists res c',
    SetDeadline t (c, w) = Done res (c', w)
    /\ readDeadline c' = t
    /\ readNotBefore c' = readNotBefore c
    /\ writeNotBefore c' = writeNotBefore c
    /\ limiter c' = limiter c /\ close c' = close c
    /\ match fst (conn_SetReadDeadline (inner c) t) with
       | Some e =>
           res = Some e
           /\ writeDeadline c' = writeDeadline c
           /\ inner c' = snd (conn_SetReadDeadline (inner c) t)
       | None =>
           res = fst (conn_SetWriteDeadline
                        (snd (conn_SetReadDeadline (inner c) t)) t)
           /\ writeDeadline c' = t
           /\ inner c' = snd (conn_SetWriteDeadline
                                (snd (conn_SetReadDeadline (inner c) t)) t)
       end.
Proof.
  unfold SetDeadline, bind. rewrite SetReadDeadline_run.
  destruct (fst (conn_SetReadDeadline (inner c) t)) as [e|].
  - do 2 eexists. split; [reflexivity|]. repeat split.
  - rewrite SetWriteDeadline_run. do 2 eexists. split; [reflexivity|].
    repeat split.
Qed.

(** The first [Close] of a connection. *)
Lemma Close_run c w :
  close c = ChanOpen ->
  Close (c, w) =
  Done (fst (conn_Close (inner c)))
       (set_inner (snd (conn_Close (inner c))) (set_close ChanClosed c), w).
Proof.
  intros Hc. unfold Close, bind, close_chan, on_inner, ret. rewrite Hc.
  cbn [inner set_close]. destruct (conn_Close (inner c)). reflexivity.
Qed.

(** Closing changes no timestamp, so it changes no wait target. *)
Lemma pre_target_after_Close d c i w :
  pre_target d (set_inner i (set_close ChanClosed c)) w = pre_target d c w.
Proof. destruct d; reflexivity. Qed.

(** X18. [Close] does not stop the I/O itself: after it, a Read or Write
    with a non-empty buffer that has no wait due before its I/O still hands
    its chunk to the wrapped connection, now closed, and returns the count
    that answers. *)
Theorem Close_leaves_the_refusal_to_the_wrapped_connection
    c w d b w2 lim :
  close c = ChanOpen ->
  b <> [] ->
  IsZero (pre_target d c w2) = true ->
  limiters w2 !! limiter c = Some lim -> 0 <= Burst lim ->
  exists r c1 res c' w' n err evs,
    Close (c, w) = Done r (c1, w)
    /\ inner c1 = snd (conn_Close (inner c))
    /\ fst (fst (primitive d (inner c1) (chunk_of lim b))) = (n, err)
    /\ transfer d b (c1, w2) = Done res (c', w')
    /\ trace w' = trace w2 ++ EvIO (chunk_of lim b) n err :: evs
    /\ fst (fst res) = n.
Proof.
  intros Hc Hb Hz Hl Hburst. rewrite (Close_run c w Hc).
  set (c1 := set_inner _ _).
  assert (Hp : passes_prewait d c1 w2)
    by (left; unfold c1; now rewrite pre_target_after_Close).
  destruct (transfer_log d b c1 w2 lim Hb Hp Hl Hburst)
    as (res & c' & w' & evs & Hrun & Htr & Hshape & Hres & _).
  rewrite trace_before_io in Htr. unfold prewait_events in Htr.
  unfold c1 in Htr at 1. rewrite pre_target_after_Close, Hz in Htr.
  cbn [app] in Htr. rewrite app_nil_r in Htr.
  destruct (primitive d (inner c1) (chunk_of lim b)) as [[[n err] data] i] eqn:Hio.
  cbn [fst snd] in *. rewrite Hres in Hshape.
  exists (fst (conn_Close (inner c))), c1, res, c', w', n, err.
  inversion Hshape; subst evs; eexists;
    (split; [reflexivity|]); (split; [reflexivity|]);
    (split; [now rewrite Hio|]); (split; [exact Hrun|]);
    (split; [exact Htr | exact Hres]).
Qed.

(** X19. [NewLimitedConnection] accepts a limiter whose burst is negative
    ([rate.NewLimiter] builds one from any [int]); the first Read or Write
    with a non-empty buffer on that connection then panics, slicing the
    buffer to a negative length, before any I/O. *)
Theorem negative_burst_panics_at_the_first_call
    (i : Conn) (l : nat) (w : World) (lim : Limiter) d b w1 lim1 :
  limiters w !! l = Some lim ->
  b <> [] ->
  limiters w1 !! l = Some lim1 -> Burst lim1 < 0 ->
  exists c0,
    NewLimitedConnection i l w = Done c0 w
    /\ transfer d b (c0, w1) = Panicked SliceBoundsOutOfRange.
Proof.
  intros Hl Hb Hl1 Hneg. eexists. split.
  { unfold NewLimitedConnection, bind, limiter_Burst. rewrite Hl. reflexivity. }
  apply (transfer_negative_burst d b _ w1 lim1 Hb); [| exact Hl1 | exact Hneg].
  left. unfold pre_target, wait_target.
  destruct d; cbn; destruct (Before _ _); reflexivity.
Qed.

End Facts.

(** *** The theorems at work on the test doubles *)

#[local] Existing Instance Double.outside.

Import Double.

(** [bucket0] once four tokens have been reserved at 1001. *)
Definition bucket1 : bucket := {| capacity := 4; pace := 1000; free_at := 5001 |}.

(** [conn0] and [world0] after a first Read of [buf6]. *)
Definition conn1 : LimitedConnection :=
  {| inner := [8; 0];
     limiter := 1%nat;
     readNotBefore := zeroTime;
     writeNotBefore := zeroTime;
     readDeadline := zeroTime;
     writeDeadline := zeroTime;
     close := ChanOpen |}.

Definition world1 : World :=
  {| limiters := {[ 1%nat := bucket1 ]};
     ticks := 3; selects := 1;
     trace := [EvIO first4 4 None; EvReserve 1001 4 5001;
               EvWait 5001 TimerFired] |}.

(** A bucket that never makes a reservation wait, and a world around it. *)
Definition bucket_free : bucket := {| capacity := 4; pace := 0; free_at := 0 |}.

Definition world_free : World :=
  {| limiters := {[ 1%nat := bucket_free ]};
     ticks := 0; selects := 0; trace := [] |}.

(** A bucket made with a negative burst. *)
Definition bucket_neg : bucket := {| capacity := -1; pace := 1000; free_at := 0 |}.

Definition world_neg : World :=
  {| limiters := {[ 1%nat := bucket_neg ]};
     ticks := 0; selects := 0; trace := [] |}.

(** A connection that owes a delay until 5000 on its read side, with a read
    deadline at 2000. *)
Definition conn_owing_deadline : LimitedConnection :=
  {| inner := [8; 8; 0];
     limiter := 1%nat;
     readNotBefore := 5000;
     writeNotBefore := zeroTime;
     readDeadline := 2000;
     writeDeadline := zeroTime;
     close := ChanOpen |}.

(** X10 on a Read of six bytes through a bucket of burst four. *)
Lemma reserves_what_it_transfers_witness :
  (buf6 <> [] /\ passes_prewait reading conn0 world0
   /\ limiters world0 !! limiter conn0 = Some bucket0
   /\ 0 <= Burst bucket0
   /\ primitive reading (inner conn0) (chunk_of bucket0 buf6)
      = (4, None, first4, [8; 0]))
  /\ exists res c' w',
       transfer reading buf6 (conn0, world0) = Done res (c', w')
       /\ fst (fst res) = 4
       /\ (forall l', l' <> limiter conn0 ->
           limiters w' !! l' = limiters world0 !! l')
       /\ limiters w' !! limiter conn0 = Some bucket1.
Proof.
  assert (H1 : buf6 <> []) by discriminate.
  assert (H2 : passes_prewait reading conn0 world0) by (left; reflexivity).
  assert (H3 : limiters world0 !! limiter conn0 = Some bucket0) by reflexivity.
  assert (H4 : 0 <= Burst bucket0) by (simpl; lia).
  assert (H5 : primitive reading (inner conn0) (chunk_of bucket0 buf6)
               = (4, None, first4, [8; 0])) by reflexivity.
  split; [repeat (split; [assumption|]); assumption|].
  exact (reserves_what_it_transfers reading buf6 conn0 world0 bucket0
           4 None first4 [8; 0] H1 H2 H3 H4 H5).
Defined.

(** X11 on a Read and then a Write on two connections over the bucket at
    pointer 1. *)
Lemma connections_share_the_bucket_witness :
  (buf6 <> [] /\ passes_prewait reading conn0 world0
   /\ limiters world0 !! limiter conn0 = Some bucket0
   /\ 0 <= Burst bucket0
   /\ primitive reading (inner conn0) (chunk_of bucket0 buf6)
      = (4, None, first4, [8; 0])
   /\ 4 <> 0
   /\ transfer reading buf6 (conn0, world0)
      = Done (4, None, buf6) (conn1, world1)
   /\ limiter conn0 = limiter conn0
   /\ passes_prewait writing conn0 world1
   /\ 0 <= Burst bucket1
   /\ primitive writing (inner conn0) (chunk_of bucket1 buf6)
      = (4, None, first4, [8; 0]))
  /\ exists res2 c2' w2,
       transfer writing buf6 (conn0, world1) = Done res2 (c2', w2)
       /\ limiters world1 !! limiter conn0 = Some bucket1
       /\ limiters w2 !! limiter conn0
          = Some {| capacity := 4; pace := 1000; free_at := 9001 |}.
Proof.
  assert (H1 : buf6 <> []) by discriminate.
  assert (H2 : passes_prewait reading conn0 world0) by (left; reflexivity).
  assert (H3 : limiters world0 !! limiter conn0 = Some bucket0) by reflexivity.
  assert (H4 : 0 <= Burst bucket0) by (simpl; lia).
  assert (H5 : primitive reading (inner conn0) (chunk_of bucket0 buf6)
               = (4, None, first4, [8; 0])) by reflexivity.
  assert (H6 : 4 <> 0) by lia.
  assert (H7 : transfer reading buf6 (conn0, world0)
               = Done (4, None, buf6) (conn1, world1)) by reflexivity.
  assert (H8 : limiter conn0 = limiter conn0) by reflexivity.
  assert (H9 : passes_prewait writing conn0 world1) by (left; reflexivity).
  assert (H10 : 0 <= Burst bucket1) by (simpl; lia).
  assert (H11 : primitive writing (inner conn0) (chunk_of bucket1 buf6)
                = (4, None, first4, [8; 0])) by reflexivity.
  split; [repeat (split; [assumption|]); assumption|].
  exact (connections_share_the_bucket
           reading buf6 conn0 world0 bucket0 4 None first4 [8; 0]
           (4, None, buf6) conn1 world1
           writing buf6 conn0 4 None first4 [8; 0]
           H1 H2 H3 H4 H5 H6 H7 H8 H1 H9 H10 H11 H6).
Defined.

(** X12 on a Read through a bucket that has the tokens at once. *)
Lemma tokens_at_hand_returns_at_once_witness :
  (buf6 <> [] /\ passes_prewait reading conn0 world_free
   /\ limiters world_free !! limiter conn0 = Some bucket_free
   /\ 0 <= Burst bucket_free
   /\ primitive reading (inner conn0) (chunk_of bucket_free buf6)
      = (4, None, first4, [8; 0])
   /\ 4 <> 0
   /\ ReserveN bucket_free 1001 4
      = (1001, {| capacity := 4; pace := 0; free_at := 1001 |})
   /\ Before 1001 (Add 1001 (DelayFrom (1001 : Reservation) 1001)) = false)
  /\ exists w',
       transfer reading buf6 (conn0, world_free)
       = Done (4, None, write_back buf6 0 first4) (set_inner [8; 0] conn0, w')
       /\ trace w' = trace (before_io reading conn0 world_free)
                       ++ [EvIO (chunk_of bucket_free buf6) 4 None;
                           EvReserve 1001 4 1001]
       /\ selects w' = selects (before_io reading conn0 world_free)
       /\ limiters w' !! limiter conn0
          = Some {| capacity := 4; pace := 0; free_at := 1001 |}.
Proof.
  assert (H1 : buf6 <> []) by discriminate.
  assert (H2 : passes_prewait reading conn0 world_free) by (left; reflexivity).
  assert (H3 : limiters world_free !! limiter conn0 = Some bucket_free)
    by reflexivity.
  assert (H4 : 0 <= Burst bucket_free) by (simpl; lia).
  assert (H5 : primitive reading (inner conn0) (chunk_of bucket_free buf6)
               = (4, None, first4, [8; 0])) by reflexivity.
  assert (H6 : 4 <> 0) by lia.
  assert (H7 : ReserveN bucket_free 1001 4
               = (1001, {| capacity := 4; pace := 0; free_at := 1001 |}))
    by reflexivity.
  assert (H8 : Before 1001 (Add 1001 (DelayFrom (1001 : Reservation) 1001))
               = false) by reflexivity.
  split; [repeat (split; [assumption|]); assumption|].
  exact (tokens_at_hand_returns_at_once reading buf6 conn0 world_free
           bucket_free 4 None first4 [8; 0] 1001
           {| capacity := 4; pace := 0; free_at := 1001 |}
           H1 H2 H3 H4 H5 H6 H7 H8).
Defined.

(** X13 on a Read with no deadline through a bucket that makes the four
    bytes wait until 5001. *)
Lemma waits_for_the_tokens_witness :
  (buf6 <> [] /\ passes_prewait reading conn0 world0
   /\ limiters world0 !! limiter conn0 = Some bucket0
   /\ 0 <= Burst bucket0
   /\ primitive reading (inner conn0) (chunk_of bucket0 buf6)
      = (4, None, first4, [8; 0])
   /\ 4 <> 0
   /\ 0 <= 1001
   /\ ReserveN bucket0 1001 4 = (5001, bucket1)
   /\ Before 1001 5001 = true
   /\ (IsZero (deref (deadline_of reading) conn0) = true
       \/ Before (deref (deadline_of reading) conn0) 5001 = false))
  /\ exists c' w',
       transfer reading buf6 (conn0, world0)
       = Done (4, None, write_back buf6 0 first4) (c', w')
       /\ trace w' = trace (before_io reading conn0 world0)
                       ++ [EvIO (chunk_of bucket0 buf6) 4 None;
                           EvReserve 1001 4 5001; EvWait 5001 TimerFired]
       /\ (forall p, deref p c' = deref p conn0)
       /\ inner c' = [8; 0]
       /\ limiters w' !! limiter conn0 = Some bucket1.
Proof.
  assert (H1 : buf6 <> []) by discriminate.
  assert (H2 : passes_prewait reading conn0 world0) by (left; reflexivity).
  assert (H3 : limiters world0 !! limiter conn0 = Some bucket0) by reflexivity.
  assert (H4 : 0 <= Burst bucket0) by (simpl; lia).
  assert (H5 : primitive reading (inner conn0) (chunk_of bucket0 buf6)
               = (4, None, first4, [8; 0])) by reflexivity.
  assert (H6 : 4 <> 0) by lia.
  assert (H7 : 0 <= 1001) by lia.
  assert (H8 : ReserveN bucket0 1001 4 = (5001, bucket1)) by reflexivity.
  assert (H9 : Before 1001 5001 = true) by reflexivity.
  assert (H10 : IsZero (deref (deadline_of reading) conn0) = true
                \/ Before (deref (deadline_of reading) conn0) 5001 = false)
    by (left; reflexivity).
  split; [repeat (split; [assumption|]); assumption|].
  exact (waits_for_the_tokens reading buf6 conn0 world0 bucket0
           4 None first4 [8; 0] 5001 bucket1
           H1 H2 H3 H4 H5 H6 H7 H8 H9 H10).
Defined.

(** X14 on the first Read of [buf6] on [conn0]. *)
Lemma a_call_writes_not_before_only_on_timeout_witness :
  transfer reading buf6 (conn0, world0) = Done (4, None, buf6) (conn1, world1)
  /\ limiter conn1 = limiter conn0
  /\ (forall p, p <> notBefore_of reading -> deref p conn1 = deref p conn0)
  /\ (deref (notBefore_of reading) conn1 = deref (notBefore_of reading) conn0
      \/ snd (fst (4, None (A := error), buf6))
         = Some (err_timeoutError timeoutError_lit)).
Proof.
  assert (H : transfer reading buf6 (conn0, world0)
              = Done (4, None, buf6) (conn1, world1)) by reflexivity.
  split; [exact H|].
  exact (a_call_writes_not_before_only_on_timeout reading buf6 conn0 world0
           (4, None, buf6) conn1 world1 H).
Defined.

(** X15 on a Read that owes a delay until 5000 under a deadline at 2000. *)
Lemma deadline_cuts_the_owed_wait_witness :
  (buf6 <> []
   /\ Before (clock (ticks world0))
        (deref (notBefore_of reading) conn_owing_deadline) = true
   /\ IsZero (deref (deadline_of reading) conn_owing_deadline) = false
   /\ Before (deref (deadline_of reading) conn_owing_deadline)
        (deref (notBefore_of reading) conn_owing_deadline) = true
   /\ wait_outcome conn_owing_deadline (tick world0)
        (deref (deadline_of reading) conn_owing_deadline) = TimerFired
   /\ limiters world0 !! limiter conn_owing_deadline = Some bucket0
   /\ 0 <= Burst bucket0)
  /\ exists res c' w' n err evs,
       transfer reading buf6 (conn_owing_deadline, world0) = Done res (c', w')
       /\ trace w' = trace world0
                       ++ EvWait 2000 TimerFired
                       :: EvIO (chunk_of bucket0 buf6) n err :: evs.
Proof.
  assert (H1 : buf6 <> []) by discriminate.
  assert (H2 : Before (clock (ticks world0))
                 (deref (notBefore_of reading) conn_owing_deadline) = true)
    by reflexivity.
  assert (H3 : IsZero (deref (deadline_of reading) conn_owing_deadline) = false)
    by reflexivity.
  assert (H4 : Before (deref (deadline_of reading) conn_owing_deadline)
                 (deref (notBefore_of reading) conn_owing_deadline) = true)
    by reflexivity.
  assert (H5 : wait_outcome conn_owing_deadline (tick world0)
                 (deref (deadline_of reading) conn_owing_deadline) = TimerFired)
    by reflexivity.
  assert (H6 : limiters world0 !! limiter conn_owing_deadline = Some bucket0)
    by reflexivity.
  assert (H7 : 0 <= Burst bucket0) by (simpl; lia).
  split; [repeat (split; [assumption|]); assumption|].
  exact (deadline_cuts_the_owed_wait reading buf6 conn_owing_deadline world0
           bucket0 H1 H2 H3 H4 H5 H6 H7).
Defined.

(** X18 on [conn0]. *)
Lemma Close_leaves_the_refusal_to_the_wrapped_connection_witness :
  (close conn0 = ChanOpen /\ buf6 <> []
   /\ IsZero (pre_target reading conn0 world0) = true
   /\ limiters world0 !! limiter conn0 = Some bucket0
   /\ 0 <= Burst bucket0)
  /\ exists r c1 res c' w' n err evs,
       Close (conn0, world0) = Done r (c1, world0)
       /\ inner c1 = snd (conn_Close (inner conn0))
       /\ fst (fst (primitive reading (inner c1) (chunk_of bucket0 buf6)))
          = (n, err)
       /\ transfer reading buf6 (c1, world0) = Done res (c', w')
       /\ trace w' = trace world0 ++ EvIO (chunk_of bucket0 buf6) n err :: evs
       /\ fst (fst res) = n.
Proof.
  assert (H1 : close conn0 = ChanOpen) by reflexivity.
  assert (H2 : buf6 <> []) by discriminate.
  assert (H3 : IsZero (pre_target reading conn0 world0) = true) by reflexivity.
  assert (H4 : limiters world0 !! limiter conn0 = Some bucket0) by reflexivity.
  assert (H5 : 0 <= Burst bucket0) by (simpl; lia).
  split; [repeat (split; [assumption|]); assumption|].
  exact (Close_leaves_the_refusal_to_the_wrapped_connection
           conn0 world0 reading buf6 world0 bucket0 H1 H2 H3 H4 H5).
Defined.

(** X19 on a bucket of burst -1. *)
Lemma negative_burst_panics_at_the_first_call_witness :
  (limiters world_neg !! 1%nat = Some bucket_neg /\ buf6 <> []
   /\ Burst bucket_neg < 0)
  /\ exists c0,
       NewLimitedConnection [8; 8; 0] 1%nat world_neg = Done c0 world_neg
       /\ transfer writing buf6 (c0, world_neg)
          = Panicked SliceBoundsOutOfRange.
Proof.
  assert (H1 : limiters world_neg !! 1%nat = Some bucket_neg) by reflexivity.
  assert (H2 : buf6 <> []) by discriminate.
  assert (H3 : Burst bucket_neg < 0) by reflexivity.
  split; [repeat (split; [assumption|]); assumption|].
  exact (negative_burst_panics_at_the_first_call [8; 8; 0] 1%nat world_neg
           bucket_neg writing buf6 world_neg bucket_neg H1 H2 H1 H3).
Defined.

End ConnCoverage.

(** ** From the flag to the limiter *)

Module MainCoverage.

Import Limit BurstFacts BurstCoverage.

(** The part of [main] between the flag and the server: [ParseLimit] on the
    value of the flag [-b], [log.Fatal] on its error (the process exits with
    the error), and otherwise [NewLimiter(rate.Limit(bps))]. *)
Definition main_limiter {O : Outside} (limit : gostring)
  : M World (Parse.error + nat) :=
  match Parse.ParseLimit limit with
  | (_, Some err) => ret (inl err)
  | (bps, None) =>
      let! limiter := NewLimiter (Limit_of_int64 bps) in
      ret (inr limiter)
  end.

Section Facts.

Context {O : Outside}.

(** X20. For a flag value made of a decimal number and one of the eight
    units or nothing, the number times the unit's multiplier being at most
    2^63 - 513, [main] gets its limiter: a new one, built by
    [rate.NewLimiter] from the rate in bytes per second (number times
    multiplier, divided by the divisor) and the burst 65536 when that rate
    is 0, a twentieth of it clamped to [1, 65536] otherwise. *)
Theorem main_limiter_of_flag (ds : gostring) (u : Parse.uom) (w : World) :
  ParseFacts.digits ds -> In u ParseFacts.grammar ->
  ParseFacts.decimal ds * Parse.mul u <= 2 ^ 63 - 513 ->
  let bps := Z.quot (ParseFacts.decimal ds * Parse.mul u) (Parse.div u) in
  exists l w',
    main_limiter (ds ++ str (Parse.unit u)) w = Done (inr l) w'
    /\ limiters w !! l = None
    /\ limiters w' !! l
       = Some (rate_NewLimiter (Limit_of_int64 bps)
                 (if bps =? 0 then 65536 else clamp (bps / 20) 1 65536)).
Proof.
  intros Hds Hin Hle bps.
  destruct (ParseFacts.ParseLimit_grammar ds u Hds Hin
              ltac:(unfold MaxInt64; lia)) as (Hp & _ & Hq).
  fold bps in Hp, Hq.
  assert (Hb : 0 <= bps <= 2 ^ 63 - 513).
  { split; [exact Hq|]. unfold bps.
    pose proof (ParseCoverage.decimal_nonneg ds).
    assert (Hm : 1 <= Parse.mul u /\ (Parse.div u = 1 \/ Parse.div u = 8)).
    { unfold ParseFacts.grammar, Parse.uomSuffixes in Hin. simpl in Hin.
      repeat (destruct Hin as [<- | Hin]); [..| destruct Hin]; simpl; lia. }
    destruct Hm as [Hm [-> | ->]]; [rewrite Z.quot_1_r; lia|].
    transitivity (ParseFacts.decimal ds * Parse.mul u); [|exact Hle].
    apply Z.quot_le_upper_bound; nia. }
  unfold main_limiter. rewrite Hp. unfold bind at 1. unfold NewLimiter.
  cbn [ret]. do 2 eexists. split; [reflexivity|].
  split; [apply not_elem_of_dom, is_fresh|].
  cbn [limiters set_limiters]. rewrite lookup_insert_eq.
  now rewrite (GetGoodBurst_of_int64 bps Hb).
Qed.

End Facts.

(** X20 on the flag value "10Mbps": 1250000 bytes per second, bursts of
    62500 bytes. *)
Lemma main_limiter_of_flag_witness :
  let Mbps := {| Parse.unit := "Mbps"; Parse.mul := 1000 * 1000;
                 Parse.div := 8 |} in
  (ParseFacts.digits (str "10") /\ In Mbps ParseFacts.grammar
   /\ ParseFacts.decimal (str "10") * Parse.mul Mbps <= 2 ^ 63 - 513)
  /\ exists l w',
       main_limiter (O := Double.outside) (str "10Mbps") Double.world0
       = Done (inr l) w'
       /\ limiters Double.world0 !! l = None
       /\ limiters w' !! l
          = Some (rate_NewLimiter (Outside := Double.outside)
                    (Limit_of_int64 1250000) 62500).
Proof.
  cbv zeta.
  assert (H1 : ParseFacts.digits (str "10"))
    by (split; [discriminate | reflexivity]).
  assert (H2 : In {| Parse.unit := "Mbps"; Parse.mul := 1000 * 1000;
                     Parse.div := 8 |} ParseFacts.grammar)
    by (right; left; reflexivity).
  assert (H3 : ParseFacts.decimal (str "10") * (1000 * 1000) <= 2 ^ 63 - 513)
    by (vm_compute; discriminate).
  split; [split; [exact H1 | split; [exact H2 | exact H3]] |].
  exact (main_limiter_of_flag (O := Double.outside) (str "10") _ Double.world0
           H1 H2 H3).
Defined.

(** The largest rate the flag can carry: [ParseLimit] accepts it, as a
    [float64] it is 2^63, which no [int64] holds, and with the conversion of
    amd64 the burst of the limiter is 1. *)
Example largest_rate_of_flag :
  Parse.ParseLimit (str "9223372036854775807") = (2 ^ 63 - 1, None)
  /\ Limit_of_int64 (2 ^ 63 - 1) = inject_Z (2 ^ 63)
  /\ GetGoodBurst (O := Double.outside) (Limit_of_int64 (2 ^ 63 - 1)) = 1.
Proof. repeat split. Qed.

End MainCoverage.
